(** * Parallel-Grepper: word-frequency counters, sequential and OpenMP

    A shallow embedding of [src/sequential/word_counter_sequential.cpp],
    [src/parallel/word_counter_parallel.cpp] and the two [main.cpp] drivers,
    followed by the properties of the design specification.

    Conventions of the embedding
    - [std::string] is [string], a [char] is an [ascii]; the value of
      [static_cast<unsigned char>(c)] is [uchar c], an integer in 0..255.
    - [unsigned long long] is a [Z] reduced modulo 2^64 at every update,
      [int] is a [Z] and a conversion to [int] is [static_cast_int].
    - [std::unordered_map<std::string, unsigned long long>] is a
      [gmap string Z]; iterating a map visits [map_to_list]. The order in
      which an [unordered_map] is iterated depends on the history of its
      insertions, which a [gmap] does not keep: the ranking takes it
      through its parameter [sort], the copy of the entries in iteration
      order followed by [std::sort], so that two maps that were built by
      different insertions are ranked by two [sort]s.
    - the counter objects are records; a member function takes the object
      and returns the updated object next to its result.
    - files and the two console streams live in a [World] that the I/O
      functions thread through.
    - the clock readings are arguments [startTime] and [endTime], in
      milliseconds; the [double] executionTime is the rational [Q] it
      stands for, and [show_fixed p x], a parameter, is the text that
      [std::fixed << std::setprecision(p) << x] prints.
    - library functions outside the repository are parameters of the
      functions that call them: [sort] for [std::sort], [stoi] for
      [std::stoi] ([None] when it throws).
    - an OpenMP parallel region is run under a [Schedule]: the split of the
      iteration space among the threads, the interleaving of their loop
      iterations and the order in which they enter the merge section.
      Whether the runtime can create the team at all is its answer [fork]
      to the request of a team. *)

From Stdlib Require Import ZArith QArith Ascii String List Sorting.Sorted Sorting.Permutation.
From stdpp Require Import gmap strings list fin_maps pretty.

Local Open Scope Z_scope.

(** ** Characters: the "C" locale of <cctype> *)

Definition uchar (c : ascii) : Z := Z.of_N (N_of_ascii c).

(** Conversion of the [int] that [std::tolower] returns back to a [char]. *)
Definition to_char (z : Z) : ascii := ascii_of_N (Z.to_N (z mod 256)).

Definition isupper (c : Z) : bool := (65 <=? c) && (c <=? 90).
Definition islower (c : Z) : bool := (97 <=? c) && (c <=? 122).
Definition isalpha (c : Z) : bool := isupper c || islower c.
Definition tolower (c : Z) : Z := if isupper c then c + 32 else c.
Definition isspace (c : Z) : bool := (c =? 32) || ((9 <=? c) && (c <=? 13)).

(** [s.empty()] *)
Definition is_empty (s : string) : bool :=
  match s with EmptyString => true | String _ _ => false end.

(** ** Machine integers *)

Definition wrap64 (z : Z) : Z := z mod 2 ^ 64.

(** Conversion of a [size_t] to [int]: reduction modulo 2^32 into the
    signed range. *)
Definition static_cast_int (z : Z) : Z := (z + 2 ^ 31) mod 2 ^ 32 - 2 ^ 31.

(** ** The frequency map *)

Abbreviation WordMap := (gmap string Z).
Abbreviation Entry := (string * Z)%type.

(** [m[k] += v] on an [unordered_map]: a missing key is value-initialised
    to 0 first. *)
Definition map_add (m : WordMap) (k : string) (v : Z) : WordMap :=
  <[k := wrap64 (default 0 (m !! k) + v)]> m.

(** [m[k]++] *)
Definition map_incr (m : WordMap) (k : string) : WordMap := map_add m k 1.

(** ** Tokenizer: the [while (stream >> word)] loops

    [operator>>] skips white space, then reads up to the next white space
    or the end of the stream, and fails when it could read no character.
    [read_words text word] is the list of words read from [text] when
    [word] holds the characters of the word being read. *)
Fixpoint read_words (text : string) (word : string) : list string :=
  match text with
  | EmptyString => if is_empty word then [] else [word]
  | String c rest =>
      if isspace (uchar c)
      then (if is_empty word then read_words rest "" else word :: read_words rest "")
      else read_words rest (word +:+ String c "")
  end.

Definition extract_words (text : string) : list string := read_words text "".

(** ** I/O world *)

(** [files] holds the contents of the files that can be opened for
    reading; [creatable] tells whether an [ofstream] on a path opens. *)
Record World := mkWorld {
  files : gmap string string;
  creatable : string -> bool;
  cout : string;
  cerr : string
}.

Definition endl : string := String (ascii_of_nat 10) "".

Definition print_cout (s : string) (w : World) : World :=
  mkWorld (files w) (creatable w) (cout w +:+ s) (cerr w).
Definition print_cerr (s : string) (w : World) : World :=
  mkWorld (files w) (creatable w) (cout w) (cerr w +:+ s).
Definition write_file (name content : string) (w : World) : World :=
  mkWorld (<[name := content]> (files w)) (creatable w) (cout w) (cerr w).

(** [setw] with [std::left] / [std::right] and the fill character ' '. *)
Definition spaces (n : nat) : string := string_of_list_ascii (repeat " "%char n).
Definition setw_left (w : nat) (s : string) : string :=
  s +:+ spaces (w - String.length s).
Definition setw_right (w : nat) (s : string) : string :=
  spaces (w - String.length s) +:+ s.

(** The comparator of both [getTopWords]: [a.second > b.second]. *)
Definition by_count_desc (a b : Entry) : bool := b.2 <? a.2.

(** [std::sort(first, last, comp)] is a parameter [sort] of the functions
    that call it; [std_sort_contract] is what the C++ standard promises of
    it for the comparator used here. *)
Definition std_sort_contract
    (sort : (Entry -> Entry -> bool) -> list Entry -> list Entry) : Prop :=
  forall l,
    Permutation (sort by_count_desc l) l /\
    StronglySorted (fun a b => by_count_desc b a = false) (sort by_count_desc l).

(** * The sequential counter *)
Module Sequential.

Record WordCounterSequential := mkCounter {
  executionTime : Q;
  totalWords : Z;
  uniqueWords : Z
}.

(** The constructor. *)
Definition create : WordCounterSequential := mkCounter 0%Q 0 0.

Definition getExecutionTime (self : WordCounterSequential) : Q := executionTime self.
Definition getTotalWords (self : WordCounterSequential) : Z := totalWords self.
Definition getUniqueWords (self : WordCounterSequential) : Z := uniqueWords self.

Definition normalizeWord (word : string) : string :=
  fold_left
    (fun normalized c =>
       if isalpha (uchar c)
       then normalized +:+ String (to_char (tolower (uchar c))) ""
       else normalized)
    (list_ascii_of_string word) "".

Definition isValidChar (c : ascii) : bool := isalpha (uchar c).

(** The body of the two [while (... >> word)] loops, on the pair of
    [wordFreq] and the field [totalWords]. *)
Definition count_word (st : WordMap * Z) (word : string) : WordMap * Z :=
  let normalized := normalizeWord word in
  if is_empty normalized then st
  else (map_incr st.1 normalized, wrap64 (st.2 + 1)).

Definition count_stream (content : string) : WordMap * Z :=
  fold_left count_word (extract_words content) (∅, 0).

(** [startTime] and [endTime] are the two readings of the clock, in
    milliseconds. *)
Definition countWords (startTime endTime : Q) (text : string)
    (self : WordCounterSequential) : WordMap * WordCounterSequential :=
  let st := count_stream text in
  let wordFreq := st.1 in
  (wordFreq, mkCounter (endTime - startTime) st.2 (Z.of_nat (size wordFreq))).

Definition countWordsFromFile (startTime endTime : Q) (filename : string)
    (self : WordCounterSequential) (w : World)
    : WordMap * WordCounterSequential * World :=
  match files w !! filename with
  | None =>
      (∅, mkCounter 0%Q (totalWords self) (uniqueWords self),
       print_cerr ("Error: Cannot open file " +:+ filename +:+ endl) w)
  | Some content =>
      let st := count_stream content in
      let wordFreq := st.1 in
      (wordFreq, mkCounter (endTime - startTime) st.2 (Z.of_nat (size wordFreq)), w)
  end.

Definition getTopWords
    (sort : (Entry -> Entry -> bool) -> list Entry -> list Entry)
    (wordMap : WordMap) (n : Z) : list Entry :=
  let wordVec := map_to_list wordMap in
  let wordVec := sort by_count_desc wordVec in
  if (0 <? n) && (n <? static_cast_int (Z.of_nat (length wordVec)))
  then take (Z.to_nat n) wordVec
  else wordVec.

Section Report.
Variable show_fixed : nat -> Q -> string.
Variable sort : (Entry -> Entry -> bool) -> list Entry -> list Entry.

Definition report_row (e : Entry) : string :=
  setw_left 30 e.1 +:+ setw_right 15 (pretty e.2) +:+ endl.

Definition report (self : WordCounterSequential) (wordMap : WordMap) (topN : Z) : string :=
  "Word Frequency Analysis Results" +:+ endl +:+
  "================================" +:+ endl +:+
  "Total Words: " +:+ pretty (totalWords self) +:+ endl +:+
  "Unique Words: " +:+ pretty (uniqueWords self) +:+ endl +:+
  "Execution Time: " +:+ show_fixed 2 (executionTime self) +:+ " ms" +:+ endl +:+
  "================================" +:+ endl +:+ endl +:+
  setw_left 30 "Word" +:+ setw_right 15 "Frequency" +:+ endl +:+
  string_of_list_ascii (repeat "-"%char 45) +:+ endl +:+
  fold_left (fun out e => out +:+ report_row e) (getTopWords sort wordMap topN) "".

Definition saveResults (self : WordCounterSequential) (wordMap : WordMap)
    (filename : string) (topN : Z) (w : World) : World :=
  if creatable w filename
  then print_cout ("Results saved to: " +:+ filename +:+ endl)
         (write_file filename (report self wordMap topN) w)
  else print_cerr ("Error: Cannot create output file " +:+ filename +:+ endl) w.

End Report.

(** The driver [sequential/main.cpp]. [None] stands for termination by the
    exception of [std::stoi]; otherwise the exit code and the world. *)
Section Driver.
Variable show_fixed : nat -> Q -> string.
Variable sort : (Entry -> Entry -> bool) -> list Entry -> list Entry.
Variable stoi : string -> option Z.

Definition arg (argv : list string) (i : nat) : string := default "" (argv !! i).

Definition rule : string := "===========================================".
Definition dashes : string := "-------------------------------------------".

Definition top_word_line (rank : Z) (e : Entry) : string :=
  setw_right 3 (pretty rank) +:+ ". " +:+
  setw_left 20 e.1 +:+ setw_right 10 (pretty e.2) +:+ endl.

Definition print_top_words (topWords : list Entry) (w : World) : World :=
  (fold_left
     (fun st e => (print_cout (top_word_line st.2 e) st.1, st.2 + 1))
     topWords (w, 1)).1.

Definition main (startTime endTime : Q) (argv : list string) (w : World)
    : option (Z * World) :=
  let argc := Z.of_nat (length argv) in
  if argc <? 2 then
    let w := print_cerr ("Usage: " +:+ arg argv 0 +:+
                         " <input_file> [output_file] [top_n]" +:+ endl) w in
    let w := print_cerr ("Example: " +:+ arg argv 0 +:+
                         " data/test_10mb.txt results/output.txt 100" +:+ endl) w in
    Some (1, w)
  else
    let inputFile := arg argv 1 in
    let outputFile :=
      if 2 <? argc then arg argv 2 else "results/sequential/output.txt"%string in
    match (if 3 <? argc then stoi (arg argv 3) else Some 100) with
    | None => None
    | Some topN =>
        let w := print_cout (rule +:+ endl) w in
        let w := print_cout ("  Sequential Word Frequency Counter" +:+ endl) w in
        let w := print_cout (rule +:+ endl) w in
        let w := print_cout ("Input File: " +:+ inputFile +:+ endl) w in
        let w := print_cout ("Output File: " +:+ outputFile +:+ endl) w in
        let w := print_cout ("Top N Words: " +:+ pretty topN +:+ endl) w in
        let w := print_cout (dashes +:+ endl) w in
        let counter := create in
        let w := print_cout ("Processing file..." +:+ endl) w in
        let '(wordFreq, counter, w) :=
          countWordsFromFile startTime endTime inputFile counter w in
        if bool_decide (wordFreq = ∅) then
          Some (1, print_cerr ("Error: No words processed!" +:+ endl) w)
        else
          let w := print_cout (endl +:+ "Statistics:" +:+ endl) w in
          let w := print_cout (dashes +:+ endl) w in
          let w := print_cout ("Total Words:     " +:+
                               pretty (getTotalWords counter) +:+ endl) w in
          let w := print_cout ("Unique Words:    " +:+
                               pretty (getUniqueWords counter) +:+ endl) w in
          let w := print_cout ("Execution Time:  " +:+
                               show_fixed 2 (getExecutionTime counter) +:+
                               " ms" +:+ endl) w in
          let w := print_cout ("                 " +:+
                               show_fixed 4 (getExecutionTime counter / 1000)%Q +:+
                               " seconds" +:+ endl) w in
          let w := print_cout (endl +:+ "Top " +:+ pretty (Z.min 10 topN) +:+
                               " Most Frequent Words:" +:+ endl) w in
          let w := print_cout (dashes +:+ endl) w in
          let topWords := getTopWords sort wordFreq 10 in
          let w := print_top_words topWords w in
          let w := print_cout (endl +:+ "Saving results..." +:+ endl) w in
          let w := saveResults show_fixed sort counter wordFreq outputFile topN w in
          let w := print_cout (endl +:+ "Processing complete!" +:+ endl) w in
          let w := print_cout (rule +:+ endl) w in
          Some (0, w)
    end.

End Driver.

End Sequential.

(** * The parallel counter *)
Module Parallel.

Inductive SyncMethod := Critical | Atomic | Reduction.

Record WordCounterParallel := mkCounter {
  executionTime : Q;
  totalWords : Z;
  uniqueWords : Z;
  syncMethod : SyncMethod
}.

(** The constructor. *)
Definition create (mode : SyncMethod) : WordCounterParallel := mkCounter 0%Q 0 0 mode.

Definition getExecutionTime (self : WordCounterParallel) : Q := executionTime self.
Definition getTotalWords (self : WordCounterParallel) : Z := totalWords self.
Definition getUniqueWords (self : WordCounterParallel) : Z := uniqueWords self.

Definition normalizeWord (word : string) : string :=
  fold_left
    (fun normalized c =>
       if isalpha (uchar c)
       then normalized +:+ String (to_char (tolower (uchar c))) ""
       else normalized)
    (list_ascii_of_string word) "".

Definition isValidChar (c : ascii) : bool := isalpha (uchar c).

(** *** The parallel regions of buildWordMapFromList *)

(** A thread of the team: the words [rawWords[i]] of the iterations of the
    [omp for] it has still to run, its [localMap], and its private copy of
    [totalWordCount] (used by the [reduction] clause only). *)
Record Thread := mkThread {
  iterations : list string;
  localMap : WordMap;
  privateTotal : Z
}.

(** The team and the two shared variables. *)
Record Region := mkRegion {
  team : list Thread;
  wordFreq : WordMap;
  totalWordCount : Z
}.

(** What the OpenMP runtime chooses: how many consecutive iterations each
    thread gets ([schedule(static)]: one contiguous chunk per thread, in
    thread order), which thread runs the next loop iteration, and in which
    order the threads enter the merge section. *)
Record Schedule := mkSchedule {
  chunk_sizes : list nat;
  interleaving : list nat;
  merge_order : list nat
}.

Definition num_threads (s : Schedule) : nat := length (chunk_sizes s).

Fixpoint split_chunks (sizes : list nat) (l : list string) : list (list string) :=
  match sizes with
  | [] => []
  | n :: sizes => take n l :: split_chunks sizes (drop n l)
  end.

(** The words visited by
    [for (int i = 0; i < static_cast<int>(rawWords.size()); ++i)]. *)
Definition loop_range (rawWords : list string) : list string :=
  take (Z.to_nat (static_cast_int (Z.of_nat (length rawWords)))) rawWords.

(** One loop iteration of a thread under [reduction(+ : totalWordCount)]. *)
Definition iteration_reduction (t : Thread) : Thread :=
  match iterations t with
  | [] => t
  | word :: rest =>
      let normalized := normalizeWord word in
      if is_empty normalized then mkThread rest (localMap t) (privateTotal t)
      else mkThread rest (map_incr (localMap t) normalized)
                    (wrap64 (privateTotal t + 1))
  end.

(** One loop iteration of a thread in the second region; the increment of
    the shared [totalWordCount] is indivisible under both [omp atomic] and
    [omp critical]. *)
Definition iteration_shared (mode : SyncMethod) (t : Thread) (total : Z) : Thread * Z :=
  match iterations t with
  | [] => (t, total)
  | word :: rest =>
      let normalized := normalizeWord word in
      if is_empty normalized then (mkThread rest (localMap t) (privateTotal t), total)
      else
        let t' := mkThread rest (map_incr (localMap t) normalized) (privateTotal t) in
        match mode with
        | Atomic => (t', wrap64 (total + 1))
        | _ => (t', wrap64 (total + 1))
        end
  end.

(** Thread [tid] runs its next loop iteration (nothing when it has none). *)
Definition loop_step (mode : SyncMethod) (r : Region) (tid : nat) : Region :=
  match team r !! tid with
  | None => r
  | Some t =>
      match mode with
      | Reduction =>
          mkRegion (<[tid := iteration_reduction t]> (team r)) (wordFreq r)
                   (totalWordCount r)
      | _ =>
          let res := iteration_shared mode t (totalWordCount r) in
          mkRegion (<[tid := res.1]> (team r)) (wordFreq r) res.2
      end
  end.

(** Thread [tid] runs the [omp critical] section that merges its map. *)
Definition merge_step (r : Region) (tid : nat) : Region :=
  match team r !! tid with
  | None => r
  | Some t =>
      mkRegion (team r)
               (fold_left (fun wf entry => map_add wf entry.1 entry.2)
                          (map_to_list (localMap t)) (wordFreq r))
               (totalWordCount r)
  end.

(** A parallel region from fork to join, over the words [range] of the
    loop: the loop iterations in the order of the interleaving, the barrier
    at the end of the [omp for], the merges, and at the join the
    combination of the private totals under [reduction]. *)
Definition parallel_region (mode : SyncMethod) (s : Schedule) (range : list string)
    : WordMap * Z :=
  let r := mkRegion (map (fun c => mkThread c ∅ 0) (split_chunks (chunk_sizes s) range))
                    ∅ 0 in
  let r := fold_left (loop_step mode) (interleaving s) r in
  let r := fold_left merge_step (merge_order s) r in
  match mode with
  | Reduction =>
      (wordFreq r,
       fold_left (fun total t => wrap64 (total + privateTotal t)) (team r)
                 (totalWordCount r))
  | _ => (wordFreq r, totalWordCount r)
  end.

(** A schedule the runtime can produce for a loop of [n] iterations: at
    least one thread, the chunks cover the iterations, every thread runs
    all its iterations before the barrier, every thread merges once. *)
Definition valid_schedule (s : Schedule) (n : nat) : Prop :=
  (0 < num_threads s)%nat /\
  sum_list (chunk_sizes s) = n /\
  (forall tid size, chunk_sizes s !! tid = Some size ->
                    (size <= count_occ Nat.eq_dec (interleaving s) tid)%nat) /\
  Permutation (merge_order s) (seq 0 (num_threads s)).

Definition buildWordMapFromList (s : Schedule) (rawWords : list string)
    (self : WordCounterParallel) : WordMap * WordCounterParallel :=
  let self := mkCounter (executionTime self) 0 (uniqueWords self) (syncMethod self) in
  match rawWords with
  | [] => (∅, self)
  | _ =>
      let res := parallel_region (syncMethod self) s (loop_range rawWords) in
      (res.1, mkCounter (executionTime self) res.2 (uniqueWords self) (syncMethod self))
  end.

Definition countWords (s : Schedule) (startTime endTime : Q) (text : string)
    (self : WordCounterParallel) : WordMap * WordCounterParallel :=
  let rawWords := extract_words text in
  let res := buildWordMapFromList s rawWords self in
  let wordFreq := res.1 in
  let self := res.2 in
  (wordFreq,
   mkCounter (endTime - startTime) (totalWords self) (Z.of_nat (size wordFreq))
             (syncMethod self)).

Definition countWordsFromFile (s : Schedule) (startTime endTime : Q)
    (filename : string) (self : WordCounterParallel) (w : World)
    : WordMap * WordCounterParallel * World :=
  match files w !! filename with
  | None =>
      (∅, mkCounter 0%Q (totalWords self) (uniqueWords self) (syncMethod self),
       print_cerr ("Error: Cannot open file " +:+ filename +:+ endl) w)
  | Some content =>
      let rawWords := extract_words content in
      let res := buildWordMapFromList s rawWords self in
      let wordFreq := res.1 in
      let self := res.2 in
      (wordFreq,
       mkCounter (endTime - startTime) (totalWords self) (Z.of_nat (size wordFreq))
                 (syncMethod self),
       w)
  end.

Definition getTopWords
    (sort : (Entry -> Entry -> bool) -> list Entry -> list Entry)
    (wordMap : WordMap) (n : Z) : list Entry :=
  let wordVec := map_to_list wordMap in
  let wordVec := sort by_count_desc wordVec in
  if (0 <? n) && (n <? static_cast_int (Z.of_nat (length wordVec)))
  then take (Z.to_nat n) wordVec
  else wordVec.

Section Report.
Variable show_fixed : nat -> Q -> string.
Variable sort : (Entry -> Entry -> bool) -> list Entry -> list Entry.

Definition report_row (e : Entry) : string :=
  setw_left 30 e.1 +:+ setw_right 15 (pretty e.2) +:+ endl.

Definition report (self : WordCounterParallel) (wordMap : WordMap) (topN : Z) : string :=
  "Word Frequency Analysis Results" +:+ endl +:+
  "================================" +:+ endl +:+
  "Total Words: " +:+ pretty (totalWords self) +:+ endl +:+
  "Unique Words: " +:+ pretty (uniqueWords self) +:+ endl +:+
  "Execution Time: " +:+ show_fixed 2 (executionTime self) +:+ " ms" +:+ endl +:+
  "================================" +:+ endl +:+ endl +:+
  setw_left 30 "Word" +:+ setw_right 15 "Frequency" +:+ endl +:+
  string_of_list_ascii (repeat "-"%char 45) +:+ endl +:+
  fold_left (fun out e => out +:+ report_row e) (getTopWords sort wordMap topN) "".

Definition saveResults (self : WordCounterParallel) (wordMap : WordMap)
    (filename : string) (topN : Z) (w : World) : World :=
  if creatable w filename
  then print_cout ("Results saved to: " +:+ filename +:+ endl)
         (write_file filename (report self wordMap topN) w)
  else print_cerr ("Error: Cannot create output file " +:+ filename +:+ endl) w.

End Report.

(** *** The OpenMP runtime at the fork

    When a thread meets [#pragma omp parallel] the runtime creates a team
    of at most nthreads-var threads (the value [omp_set_num_threads] has
    set, else the initial one) and runs the region under one of its
    schedules, or it cannot create the team and ends the process: libgomp
    prints a message and exits with status 1, or the process is killed by
    a signal. [fork nthreads n] is what the runtime does with a region
    whose loop has [n] iterations when nthreads-var is [nthreads]: the
    schedule [Some s] it runs, or [None]. *)

(** The region a call of [countWordsFromFile] reaches, as the number of
    iterations of its loop. The call reaches no region when the file does
    not open or no word was read (the early return of
    [buildWordMapFromList]). *)
Definition region_of_file (filename : string) (w : World) : option nat :=
  match files w !! filename with
  | None => None
  | Some content =>
      match extract_words content with
      | [] => None
      | rawWords => Some (length (loop_range rawWords))
      end
  end.

(** The schedule of a call that reaches no region. *)
Definition idle : Schedule := mkSchedule [] [] [].

(** [countWordsFromFile] with the runtime asked for the team at the fork;
    [None] when the runtime ends the process there. *)
Definition countWordsFromFile_omp (fork : nat -> option Schedule)
    (startTime endTime : Q) (filename : string) (self : WordCounterParallel)
    (w : World) : option (WordMap * WordCounterParallel * World) :=
  match region_of_file filename w with
  | None => Some (countWordsFromFile idle startTime endTime filename self w)
  | Some n =>
      match fork n with
      | None => None
      | Some s => Some (countWordsFromFile s startTime endTime filename self w)
      end
  end.

(** What OpenMP promises of a team the runtime does create: a schedule of
    the loop, run by at least one and at most nthreads-var threads. *)
Definition omp_runtime_contract (fork : Z -> nat -> option Schedule) : Prop :=
  forall nthreads n s,
    fork nthreads n = Some s ->
    valid_schedule s n /\ Z.of_nat (num_threads s) <= nthreads.

(** The driver [parallel/main.cpp]. [omp_max_threads] is the value of
    [omp_get_max_threads()] at program start. [main] is the run in which
    the runtime has created the team and executes the parallel region
    under the schedule [s]; [main_omp] is the driver with the runtime
    [fork] asked for the team that [omp_set_num_threads] requests. *)
Section Driver.
Variable show_fixed : nat -> Q -> string.
Variable sort : (Entry -> Entry -> bool) -> list Entry -> list Entry.
Variable stoi : string -> option Z.
Variable omp_max_threads : Z.

Definition parseSyncMethod (s : string) : SyncMethod :=
  if String.eqb s "critical" then Critical
  else if String.eqb s "atomic" then Atomic
  else Reduction.

Definition arg (argv : list string) (i : nat) : string := default "" (argv !! i).

Definition rule : string := "===========================================".
Definition dashes : string := "-------------------------------------------".

Definition top_word_line (rank : Z) (e : Entry) : string :=
  setw_right 3 (pretty rank) +:+ ". " +:+
  setw_left 20 e.1 +:+ setw_right 10 (pretty e.2) +:+ endl.

Definition print_top_words (topWords : list Entry) (w : World) : World :=
  (fold_left
     (fun st e => (print_cout (top_word_line st.2 e) st.1, st.2 + 1))
     topWords (w, 1)).1.

Definition main (s : Schedule) (startTime endTime : Q) (argv : list string)
    (w : World) : option (Z * World) :=
  let argc := Z.of_nat (length argv) in
  if argc <? 2 then
    let w := print_cerr ("Usage: " +:+ arg argv 0 +:+
                         " <input_file> [output_file] [top_n] [num_threads]" +:+ endl) w in
    let w := print_cerr ("Example: " +:+ arg argv 0 +:+
                         " data/test_10mb.txt results/output.txt 100 4" +:+ endl) w in
    Some (1, w)
  else
    let inputFile := arg argv 1 in
    let outputFile :=
      if 2 <? argc then arg argv 2 else "results/parallel/output.txt"%string in
    match (if 3 <? argc then stoi (arg argv 3) else Some 100) with
    | None => None
    | Some topN =>
    match (if 4 <? argc then stoi (arg argv 4) else Some 0) with
    | None => None
    | Some numThreads =>
        let syncModeStr := if 5 <? argc then arg argv 5 else "reduction"%string in
        let mode := parseSyncMethod syncModeStr in
        let max_threads := if 0 <? numThreads then numThreads else omp_max_threads in
        let w := print_cout (rule +:+ endl) w in
        let w := print_cout ("  Parallel Word Frequency Counter (OpenMP)" +:+ endl) w in
        let w := print_cout (rule +:+ endl) w in
        let w := print_cout ("Input File: " +:+ inputFile +:+ endl) w in
        let w := print_cout ("Output File: " +:+ outputFile +:+ endl) w in
        let w := print_cout ("Top N Words: " +:+ pretty topN +:+ endl) w in
        let w := print_cout ("Threads: " +:+ pretty max_threads +:+ endl) w in
        let w := print_cout ("Sync Mode: " +:+ syncModeStr +:+ endl) w in
        let w := print_cout (dashes +:+ endl) w in
        let counter := create mode in
        let w := print_cout ("Processing file..." +:+ endl) w in
        let '(wordFreq, counter, w) :=
          countWordsFromFile s startTime endTime inputFile counter w in
        if bool_decide (wordFreq = ∅) then
          Some (1, print_cerr ("Error: No words processed!" +:+ endl) w)
        else
          let w := print_cout (endl +:+ "Statistics:" +:+ endl) w in
          let w := print_cout (dashes +:+ endl) w in
          let w := print_cout ("Total Words:     " +:+
                               pretty (getTotalWords counter) +:+ endl) w in
          let w := print_cout ("Unique Words:    " +:+
                               pretty (getUniqueWords counter) +:+ endl) w in
          let w := print_cout ("Execution Time:  " +:+
                               show_fixed 2 (getExecutionTime counter) +:+
                               " ms" +:+ endl) w in
          let w := print_cout ("                 " +:+
                               show_fixed 4 (getExecutionTime counter / 1000)%Q +:+
                               " seconds" +:+ endl) w in
          let w := print_cout (endl +:+ "Top " +:+ pretty (Z.min 10 topN) +:+
                               " Most Frequent Words:" +:+ endl) w in
          let w := print_cout (dashes +:+ endl) w in
          let topWords := getTopWords sort wordFreq 10 in
          let w := print_top_words topWords w in
          let w := print_cout (endl +:+ "Saving results..." +:+ endl) w in
          let w := saveResults show_fixed sort counter wordFreq outputFile topN w in
          let w := print_cout (endl +:+ "Processing complete!" +:+ endl) w in
          let w := print_cout (rule +:+ endl) w in
          Some (0, w)
    end
    end.

(** [None] stands for a process that does not return from [main]: the
    exception of [std::stoi] ends it, or the runtime does at the fork. *)
Definition main_omp (fork : Z -> nat -> option Schedule) (startTime endTime : Q)
    (argv : list string) (w : World) : option (Z * World) :=
  let argc := Z.of_nat (length argv) in
  if argc <? 2 then
    let w := print_cerr ("Usage: " +:+ arg argv 0 +:+
                         " <input_file> [output_file] [top_n] [num_threads]" +:+ endl) w in
    let w := print_cerr ("Example: " +:+ arg argv 0 +:+
                         " data/test_10mb.txt results/output.txt 100 4" +:+ endl) w in
    Some (1, w)
  else
    let inputFile := arg argv 1 in
    let outputFile :=
      if 2 <? argc then arg argv 2 else "results/parallel/output.txt"%string in
    match (if 3 <? argc then stoi (arg argv 3) else Some 100) with
    | None => None
    | Some topN =>
    match (if 4 <? argc then stoi (arg argv 4) else Some 0) with
    | None => None
    | Some numThreads =>
        let syncModeStr := if 5 <? argc then arg argv 5 else "reduction"%string in
        let mode := parseSyncMethod syncModeStr in
        (* omp_set_num_threads(numThreads) sets nthreads-var *)
        let nthreads := if 0 <? numThreads then numThreads else omp_max_threads in
        let w := print_cout (rule +:+ endl) w in
        let w := print_cout ("  Parallel Word Frequency Counter (OpenMP)" +:+ endl) w in
        let w := print_cout (rule +:+ endl) w in
        let w := print_cout ("Input File: " +:+ inputFile +:+ endl) w in
        let w := print_cout ("Output File: " +:+ outputFile +:+ endl) w in
        let w := print_cout ("Top N Words: " +:+ pretty topN +:+ endl) w in
        let w := print_cout ("Threads: " +:+ pretty nthreads +:+ endl) w in
        let w := print_cout ("Sync Mode: " +:+ syncModeStr +:+ endl) w in
        let w := print_cout (dashes +:+ endl) w in
        let counter := create mode in
        let w := print_cout ("Processing file..." +:+ endl) w in
        match countWordsFromFile_omp (fork nthreads) startTime endTime inputFile
                counter w with
        | None => None
        | Some (wordFreq, counter, w) =>
        if bool_decide (wordFreq = ∅) then
          Some (1, print_cerr ("Error: No words processed!" +:+ endl) w)
        else
          let w := print_cout (endl +:+ "Statistics:" +:+ endl) w in
          let w := print_cout (dashes +:+ endl) w in
          let w := print_cout ("Total Words:     " +:+
                               pretty (getTotalWords counter) +:+ endl) w in
          let w := print_cout ("Unique Words:    " +:+
                               pretty (getUniqueWords counter) +:+ endl) w in
          let w := print_cout ("Execution Time:  " +:+
                               show_fixed 2 (getExecutionTime counter) +:+
                               " ms" +:+ endl) w in
          let w := print_cout ("                 " +:+
                               show_fixed 4 (getExecutionTime counter / 1000)%Q +:+
                               " seconds" +:+ endl) w in
          let w := print_cout (endl +:+ "Top " +:+ pretty (Z.min 10 topN) +:+
                               " Most Frequent Words:" +:+ endl) w in
          let w := print_cout (dashes +:+ endl) w in
          let topWords := getTopWords sort wordFreq 10 in
          let w := print_top_words topWords w in
          let w := print_cout (endl +:+ "Saving results..." +:+ endl) w in
          let w := saveResults show_fixed sort counter wordFreq outputFile topN w in
          let w := print_cout (endl +:+ "Processing complete!" +:+ endl) w in
          let w := print_cout (rule +:+ endl) w in
          Some (0, w)
        end
    end
    end.

End Driver.

(** A schedule that exists for every team size and trip count: chunks of
    [n / W] iterations, the first [n mod W] threads one more, every thread
    running its chunk to the end before the next starts, merges in thread
    order. *)
Definition static_chunk_sizes (W n : nat) : list nat :=
  map (fun tid => (n / W + (if tid <? n mod W then 1 else 0))%nat) (seq 0 W).

Definition static_schedule (W n : nat) : Schedule :=
  let sizes := static_chunk_sizes W n in
  mkSchedule sizes
             (concat (imap (fun tid size => repeat tid size) sizes))
             (seq 0 W).

(** A runtime that creates the team asked for, under the schedule above,
    as long as it has no more than [limit] threads. *)
Definition static_runtime (limit : Z) (nthreads : Z) (n : nat) : option Schedule :=
  if (0 <? nthreads) && (nthreads <=? limit)
  then Some (static_schedule (Z.to_nat nthreads) n)
  else None.

End Parallel.

(** ** A reference [std::sort]: insertion sort with the given comparator *)

Fixpoint insert_sorted (comp : Entry -> Entry -> bool) (x : Entry) (l : list Entry)
    : list Entry :=
  match l with
  | [] => [x]
  | y :: l' => if comp y x then y :: insert_sorted comp x l' else x :: l
  end.

Definition insertion_sort (comp : Entry -> Entry -> bool) (l : list Entry) : list Entry :=
  foldr (insert_sorted comp) [] l.

(** ** Vocabulary of the specification *)

(** The letters of the specification's normal form, paired upper and
    lower case. *)
Definition letter_pairs : list (ascii * ascii) :=
  zip (list_ascii_of_string "ABCDEFGHIJKLMNOPQRSTUVWXYZ")
      (list_ascii_of_string "abcdefghijklmnopqrstuvwxyz").

Definition is_letter (c : ascii) : bool :=
  existsb (fun p => Ascii.eqb c p.1 || Ascii.eqb c p.2) letter_pairs.

Definition lower_case (c : ascii) : ascii :=
  match find (fun p => Ascii.eqb c p.1) letter_pairs with
  | Some p => p.2
  | None => c
  end.

(** The normal form as the specification words it: the alphabetic
    characters, in order, lowercased. *)
Definition normalize_spec (token : string) : string :=
  string_of_list_ascii
    (map lower_case (List.filter is_letter (list_ascii_of_string token))).

(** The sum of the counts over all words of a frequency map. *)
Definition sum_counts (m : WordMap) : Z :=
  foldr Z.add 0 (map_to_list m).*2.

(** Number of words of a list whose normal form is not empty. *)
Definition count_nonempty (ws : list string) : Z :=
  Z.of_nat (length (List.filter (fun w => negb (is_empty (Sequential.normalizeWord w))) ws)).

(** The increments of a word list: one entry [(normal form, 1)] for
    every word whose normal form is not empty. *)
Definition word_entries (ws : list string) : list Entry :=
  map (fun w => (Sequential.normalizeWord w, 1))
      (List.filter (fun w => negb (is_empty (Sequential.normalizeWord w))) ws).

(** [m[e.first] += e.second] for the entries of a list, in order. *)
Definition replay (l : list Entry) (m : WordMap) : WordMap :=
  fold_left (fun wf entry => map_add wf entry.1 entry.2) l m.

(** The map a thread holds once it has run all its iterations, and the
    number of increments of the total it accounts for: those in its private
    copy and those it has still to make. *)
Definition thread_goal (t : Parallel.Thread) : WordMap :=
  replay (word_entries (Parallel.iterations t)) (Parallel.localMap t).

Definition thread_pending (t : Parallel.Thread) : Z :=
  Parallel.privateTotal t + count_nonempty (Parallel.iterations t).

Definition team_pending (ts : list Parallel.Thread) : Z :=
  foldr (fun t acc => thread_pending t + acc) 0 ts.

(** What the loop phase of a region keeps, between the region [r0] at the
    fork and a region [r] reached from it. *)
Definition loop_inv (mode : Parallel.SyncMethod) (r0 r : Parallel.Region) : Prop :=
  thread_goal <$> Parallel.team r = thread_goal <$> Parallel.team r0 /\
  Parallel.wordFreq r = Parallel.wordFreq r0 /\
  wrap64 (Parallel.totalWordCount r + team_pending (Parallel.team r))
  = wrap64 (Parallel.totalWordCount r0 + team_pending (Parallel.team r0)) /\
  (mode = Parallel.Reduction -> Parallel.totalWordCount r = Parallel.totalWordCount r0) /\
  (mode <> Parallel.Reduction ->
   Parallel.privateTotal <$> Parallel.team r = Parallel.privateTotal <$> Parallel.team r0) /\
  (Parallel.totalWordCount r0 = wrap64 (Parallel.totalWordCount r0) ->
   Parallel.totalWordCount r = wrap64 (Parallel.totalWordCount r)).

(** The invariant of the data model on a returned map and the counter:
    totalWords is the sum of the counts, uniqueWords the number of keys. *)
Definition seq_consistent (m : WordMap) (c : Sequential.WordCounterSequential) : Prop :=
  Sequential.getTotalWords c = sum_counts m /\
  Sequential.getUniqueWords c = Z.of_nat (size (dom m)).

Definition par_consistent (m : WordMap) (c : Parallel.WordCounterParallel) : Prop :=
  Parallel.getTotalWords c = sum_counts m /\
  Parallel.getUniqueWords c = Z.of_nat (size (dom m)).

(** ** Inputs at the limit of [int] *)

(** 2^31, the first size that does not fit an [int]. *)
Definition words_2_31 : nat := Z.to_nat (2 ^ 31).

Fixpoint repeat_string (n : nat) (s : string) : string :=
  match n with
  | O => ""
  | S n => s +:+ repeat_string n s
  end.

(** The text "a a a ... " of 2^31 words. *)
Definition big_text : string := repeat_string words_2_31 "a ".

(** Distinct words over the letters a, b, c, one for every positive
    number (its binary digits), and the map of the first [n] of them with
    count 1. *)
Fixpoint word_of_pos (p : positive) : string :=
  match p with
  | xH => "a"
  | xO q => String "b" (word_of_pos q)
  | xI q => String "c" (word_of_pos q)
  end.

Definition distinct_words (n : nat) : list Entry :=
  (fun i => (word_of_pos (Pos.of_succ_nat i), 1)) <$> seq 0 n.

Definition big_map : WordMap := list_to_map (distinct_words words_2_31).

(** The map of the ranking example of the specification. *)
Definition abc_map : WordMap := {["a"%string := 5; "b"%string := 3; "c"%string := 3]}.

(** ** Vocabulary of the further properties *)

(** A word holds at least one letter. *)
Definition has_letter (word : string) : bool :=
  existsb is_letter (list_ascii_of_string word).

(** A word holds no white space character. *)
Definition no_space (word : string) : bool :=
  forallb (fun c => negb (isspace (uchar c))) (list_ascii_of_string word).

(** The words of a list, each followed by one blank. *)
Fixpoint join_words (ws : list string) : string :=
  match ws with
  | [] => ""
  | w :: ws => w +:+ " " +:+ join_words ws
  end.

(** Number of words of a list whose normal form is [k]. *)
Definition occurrences (k : string) (ws : list string) : Z :=
  Z.of_nat (length (List.filter (fun w => String.eqb (Sequential.normalizeWord w) k) ws)).

(** Sum of the values that a list of entries holds for the key [k]. *)
Definition key_sum (k : string) (l : list Entry) : Z :=
  foldr (fun e acc => if decide (e.1 = k) then e.2 + acc else acc) 0 l.

(** The words that the loop of the parallel counter visits in a file:
    none when the file does not open. *)
Definition visited_words (filename : string) (w : World) : list string :=
  match files w !! filename with
  | Some content => Parallel.loop_range (extract_words content)
  | None => []
  end.

(** * Properties *)

(** ** Strings *)

Lemma append_cons a s t : String a s +:+ t = String a (s +:+ t).
Proof. reflexivity. Qed.

Lemma append_empty_r s : s +:+ "" = s.
Proof. induction s as [|a s IH]; [reflexivity|]. by rewrite append_cons, IH. Qed.

Lemma append_assoc s t u : (s +:+ t) +:+ u = s +:+ (t +:+ u).
Proof. induction s as [|a s IH]; [reflexivity|]. by rewrite !append_cons, IH. Qed.

Lemma is_empty_true s : is_empty s = true <-> s = ""%string.
Proof. destruct s; simpl; split; congruence. Qed.

(** ** normalizeWord *)

(** The "C" locale classification agrees with the alphabet of the
    specification on all 256 characters. *)
Lemma isalpha_is_letter c : isalpha (uchar c) = is_letter c.
Proof. destruct c as [[] [] [] [] [] [] [] []]; vm_compute; reflexivity. Qed.

Lemma tolower_lower_case c :
  is_letter c = true -> to_char (tolower (uchar c)) = lower_case c.
Proof. destruct c as [[] [] [] [] [] [] [] []]; vm_compute; congruence. Qed.

Lemma normalize_loop_spec l acc :
  fold_left
    (fun normalized c =>
       if isalpha (uchar c)
       then normalized +:+ String (to_char (tolower (uchar c))) ""
       else normalized) l acc
  = acc +:+ string_of_list_ascii (map lower_case (List.filter is_letter l)).
Proof.
  revert acc. induction l as [|c l IH]; intros acc; simpl.
  - by rewrite append_empty_r.
  - rewrite IH, isalpha_is_letter. destruct (is_letter c) eqn:Hc; [|done].
    simpl. by rewrite append_assoc, append_cons, tolower_lower_case.
Qed.

Lemma seq_normalize_spec token : Sequential.normalizeWord token = normalize_spec token.
Proof. unfold Sequential.normalizeWord. by rewrite normalize_loop_spec. Qed.

Lemma par_normalize_seq token : Parallel.normalizeWord token = Sequential.normalizeWord token.
Proof. reflexivity. Qed.

(** ** Arithmetic modulo 2^64 *)

Lemma wrap64_idemp z : wrap64 (wrap64 z) = wrap64 z.
Proof. unfold wrap64. apply Z.mod_mod. lia. Qed.

Lemma wrap64_add_l a b : wrap64 (wrap64 a + b) = wrap64 (a + b).
Proof. unfold wrap64. apply Zplus_mod_idemp_l. Qed.

Lemma wrap64_add_r a b : wrap64 (a + wrap64 b) = wrap64 (a + b).
Proof. unfold wrap64. apply Zplus_mod_idemp_r. Qed.

Lemma wrap64_small z : 0 <= z < 2 ^ 64 -> wrap64 z = z.
Proof. intros. unfold wrap64. by apply Z.mod_small. Qed.

Lemma wrap64_range z : 0 <= wrap64 z < 2 ^ 64.
Proof. unfold wrap64. apply Z.mod_pos_bound. lia. Qed.

(** ** The algebra of [m[k] += v] *)

Lemma lookup_map_add m k v j :
  map_add m k v !! j
  = if decide (k = j) then Some (wrap64 (default 0 (m !! k) + v)) else m !! j.
Proof. unfold map_add. by rewrite lookup_insert. Qed.

Lemma map_add_comm m k1 v1 k2 v2 :
  map_add (map_add m k1 v1) k2 v2 = map_add (map_add m k2 v2) k1 v1.
Proof.
  apply map_eq. intros j. rewrite !lookup_map_add.
  repeat case_decide; simplify_eq/=; try done.
  f_equal. rewrite !wrap64_add_l. f_equal. lia.
Qed.

Lemma map_add_add m k u v :
  map_add (map_add m k u) k v = map_add m k (wrap64 (u + v)).
Proof.
  apply map_eq. intros j. rewrite !lookup_map_add.
  repeat case_decide; simplify_eq/=; try done.
  f_equal. rewrite wrap64_add_l, wrap64_add_r. f_equal. lia.
Qed.

Lemma map_add_wrap m k v : map_add m k (wrap64 v) = map_add m k v.
Proof. unfold map_add. by rewrite wrap64_add_r. Qed.

Lemma map_add_fresh (m : WordMap) k v :
  m !! k = None -> map_add m k v = <[k := wrap64 v]> m.
Proof. intros H. unfold map_add. by rewrite H. Qed.

Lemma replay_app l1 l2 m : replay (l1 ++ l2) m = replay l2 (replay l1 m).
Proof. unfold replay. apply fold_left_app. Qed.

Lemma replay_map_add l m k v : replay l (map_add m k v) = map_add (replay l m) k v.
Proof.
  revert m. induction l as [|[j u] l IH]; intros m; [done|].
  change (replay l (map_add (map_add m k v) j u) = map_add (replay l (map_add m j u)) k v).
  by rewrite map_add_comm, IH.
Qed.

Lemma replay_cons e l m : replay (e :: l) m = map_add (replay l m) e.1 e.2.
Proof. change (replay (e :: l) m) with (replay l (map_add m e.1 e.2)). apply replay_map_add. Qed.

Lemma replay_perm l1 l2 m : Permutation l1 l2 -> replay l1 m = replay l2 m.
Proof.
  intros H. revert m. induction H as [|e l1 l2 _ IH|e1 e2 l|l1 l2 l3 _ IH1 _ IH2]; intros m.
  - done.
  - by rewrite !replay_cons, IH.
  - rewrite !replay_cons. apply map_add_comm.
  - by rewrite IH1.
Qed.

(** Merging a local map built by increments replays these increments on
    the global map. *)
Lemma replay_map_to_list l g : replay (map_to_list (replay l ∅)) g = replay l g.
Proof.
  induction l as [|[k v] l IH] using rev_ind.
  { change (replay [] ∅) with (∅ : WordMap). by rewrite map_to_list_empty. }
  rewrite !replay_app. change (replay [(k, v)] ?m) with (map_add m k v).
  rewrite <- IH. set (loc := replay l ∅).
  destruct (loc !! k) as [u|] eqn:Hk.
  - assert (map_add loc k v = <[k := wrap64 (u + v)]> (delete k loc)) as ->.
    { unfold map_add. rewrite Hk. simpl. by rewrite insert_delete_eq. }
    rewrite (replay_perm _ ((k, wrap64 (u + v)) :: map_to_list (delete k loc)))
      by (apply map_to_list_insert, lookup_delete_eq).
    rewrite (replay_perm (map_to_list loc) ((k, u) :: map_to_list (delete k loc)))
      by (symmetry; by apply map_to_list_delete).
    rewrite !replay_cons. simpl. by rewrite map_add_add, map_add_wrap.
  - rewrite map_add_fresh by done.
    rewrite (replay_perm _ ((k, wrap64 v) :: map_to_list loc))
      by (by apply map_to_list_insert).
    rewrite replay_cons. simpl. apply map_add_wrap.
Qed.

(** ** The sequential loop *)

Lemma word_entries_cons w ws :
  word_entries (w :: ws)
  = if is_empty (Sequential.normalizeWord w) then word_entries ws
    else (Sequential.normalizeWord w, 1) :: word_entries ws.
Proof. unfold word_entries. simpl. by destruct (is_empty _). Qed.

Lemma count_nonempty_cons w ws :
  count_nonempty (w :: ws)
  = if is_empty (Sequential.normalizeWord w) then count_nonempty ws
    else count_nonempty ws + 1.
Proof.
  unfold count_nonempty. simpl. destruct (is_empty _); simpl; [done|]. lia.
Qed.

Lemma word_entries_app ws1 ws2 :
  word_entries (ws1 ++ ws2) = word_entries ws1 ++ word_entries ws2.
Proof. unfold word_entries. by rewrite List.filter_app, map_app. Qed.

Lemma count_nonempty_app ws1 ws2 :
  count_nonempty (ws1 ++ ws2) = count_nonempty ws1 + count_nonempty ws2.
Proof. unfold count_nonempty. rewrite List.filter_app, length_app. lia. Qed.

Lemma count_nonempty_bounds ws : 0 <= count_nonempty ws <= Z.of_nat (length ws).
Proof.
  unfold count_nonempty. split; [lia|].
  apply inj_le, List.filter_length_le.
Qed.

Lemma length_word_entries ws : Z.of_nat (length (word_entries ws)) = count_nonempty ws.
Proof. unfold word_entries, count_nonempty. by rewrite length_map. Qed.

(** The loop of the sequential counter replays the increments of its
    words and counts them modulo 2^64. *)
Lemma count_word_fold ws m c :
  c = wrap64 c ->
  fold_left Sequential.count_word ws (m, c)
  = (replay (word_entries ws) m, wrap64 (c + count_nonempty ws)).
Proof.
  revert m c. induction ws as [|w ws IH]; intros m c Hc.
  - simpl. change (count_nonempty []) with 0. rewrite Z.add_0_r. by rewrite <- Hc.
  - simpl. unfold Sequential.count_word at 2. simpl.
    rewrite word_entries_cons, count_nonempty_cons.
    destruct (is_empty (Sequential.normalizeWord w)); [by apply IH|].
    rewrite IH by (by rewrite wrap64_idemp).
    rewrite wrap64_add_l. do 2 f_equal. lia.
Qed.

Lemma count_stream_spec content :
  Sequential.count_stream content
  = (replay (word_entries (extract_words content)) ∅,
     wrap64 (count_nonempty (extract_words content))).
Proof. unfold Sequential.count_stream. by rewrite count_word_fold. Qed.

(** ** The parallel region: one loop iteration *)

Import Parallel.

Lemma iteration_reduction_goal t : thread_goal (iteration_reduction t) = thread_goal t.
Proof.
  unfold iteration_reduction, thread_goal. destruct t as [[|w ws] lm p]; simpl; [done|].
  rewrite par_normalize_seq, word_entries_cons.
  by destruct (is_empty (Sequential.normalizeWord w)).
Qed.

Lemma iteration_reduction_pending t a :
  wrap64 (a + thread_pending (iteration_reduction t)) = wrap64 (a + thread_pending t).
Proof.
  unfold iteration_reduction, thread_pending. destruct t as [[|w ws] lm p]; simpl; [done|].
  rewrite par_normalize_seq, count_nonempty_cons.
  destruct (is_empty (Sequential.normalizeWord w)); simpl; [done|].
  rewrite Z.add_assoc, (Z.add_comm a), <- !Z.add_assoc, wrap64_add_l. f_equal. lia.
Qed.

Lemma iteration_reduction_length t :
  length (iterations (iteration_reduction t)) = pred (length (iterations t)).
Proof.
  unfold iteration_reduction. destruct t as [[|w ws] lm p]; simpl; [done|].
  by destruct (is_empty _).
Qed.

Lemma iteration_shared_goal mode t total :
  thread_goal (iteration_shared mode t total).1 = thread_goal t.
Proof.
  unfold iteration_shared, thread_goal. destruct t as [[|w ws] lm p]; simpl; [done|].
  rewrite par_normalize_seq, word_entries_cons.
  destruct (is_empty (Sequential.normalizeWord w)); [done|]. by destruct mode.
Qed.

Lemma iteration_shared_pending mode t total a :
  wrap64 ((iteration_shared mode t total).2 + (a + thread_pending (iteration_shared mode t total).1))
  = wrap64 (total + (a + thread_pending t)).
Proof.
  unfold iteration_shared, thread_pending. destruct t as [[|w ws] lm p]; simpl; [done|].
  rewrite par_normalize_seq, count_nonempty_cons.
  destruct (is_empty (Sequential.normalizeWord w)); simpl; [done|].
  destruct mode; simpl; rewrite wrap64_add_l; f_equal; lia.
Qed.

Lemma iteration_shared_private mode t total :
  privateTotal (iteration_shared mode t total).1 = privateTotal t.
Proof.
  unfold iteration_shared. destruct t as [[|w ws] lm p]; simpl; [done|].
  destruct (is_empty _); [done|]. by destruct mode.
Qed.

Lemma iteration_shared_wrapped mode t total :
  total = wrap64 total ->
  (iteration_shared mode t total).2 = wrap64 (iteration_shared mode t total).2.
Proof.
  intros H. unfold iteration_shared. destruct t as [[|w ws] lm p]; simpl; [done|].
  destruct (is_empty _); [done|]. destruct mode; simpl; by rewrite wrap64_idemp.
Qed.

Lemma iteration_shared_length mode t total :
  length (iterations (iteration_shared mode t total).1) = pred (length (iterations t)).
Proof.
  unfold iteration_shared. destruct t as [[|w ws] lm p]; simpl; [done|].
  destruct (is_empty _); [done|]. by destruct mode.
Qed.

Lemma team_pending_insert ts i t t' :
  ts !! i = Some t ->
  team_pending (<[i := t']> ts) = team_pending ts - thread_pending t + thread_pending t'.
Proof.
  revert i. induction ts as [|x ts IH]; intros [|i] H; simplify_eq/=.
  - lia.
  - rewrite (IH i) by done. lia.
Qed.

Lemma fmap_insert_same {A B} (f : A -> B) (l : list A) i x y :
  l !! i = Some x -> f y = f x -> f <$> <[i := y]> l = f <$> l.
Proof.
  intros Hl Hf. rewrite list_fmap_insert, Hf.
  apply list_insert_id. by rewrite list_lookup_fmap, Hl.
Qed.

(** ** The parallel region: the loop phase under any interleaving *)

Lemma loop_step_inv mode r0 r tid :
  loop_inv mode r0 r -> loop_inv mode r0 (loop_step mode r tid).
Proof.
  intros (Hg & Hw & Hp & Hr & Hs & Ht). unfold loop_step.
  destruct (team r !! tid) as [t|] eqn:Htid; [|done].
  assert (mode = Reduction \/ mode <> Reduction) as [->|Hm] by (destruct mode; auto).
  - repeat split; simpl; try done.
    + rewrite <- Hg. eapply fmap_insert_same; [done|]. apply iteration_reduction_goal.
    + rewrite <- Hp. erewrite team_pending_insert by done.
      replace (totalWordCount r + (team_pending (team r) - thread_pending t
                                   + thread_pending (iteration_reduction t)))
        with ((totalWordCount r + team_pending (team r) - thread_pending t)
              + thread_pending (iteration_reduction t)) by lia.
      rewrite iteration_reduction_pending. f_equal. lia.
  - assert (loop_inv mode r0
              (mkRegion (<[tid := (iteration_shared mode t (totalWordCount r)).1]> (team r))
                        (wordFreq r) (iteration_shared mode t (totalWordCount r)).2)) as H.
    { repeat split; simpl; try done.
      + rewrite <- Hg. eapply fmap_insert_same; [done|]. apply iteration_shared_goal.
      + rewrite <- Hp. erewrite team_pending_insert by done.
        replace (team_pending (team r) - thread_pending t
                 + thread_pending (iteration_shared mode t (totalWordCount r)).1)
          with ((team_pending (team r) - thread_pending t)
                + thread_pending (iteration_shared mode t (totalWordCount r)).1) by lia.
        rewrite iteration_shared_pending. f_equal. lia.
      + intros _. rewrite <- Hs by done. eapply fmap_insert_same; [done|].
        apply iteration_shared_private.
      + intros H0. by apply iteration_shared_wrapped, Ht. }
    by destruct mode.
Qed.

Lemma loop_inv_refl mode r0 : loop_inv mode r0 r0.
Proof. by repeat split. Qed.

Lemma loop_run_inv mode sched r0 r :
  loop_inv mode r0 r -> loop_inv mode r0 (fold_left (loop_step mode) sched r).
Proof.
  revert r. induction sched as [|tid sched IH]; intros r H; [done|].
  simpl. by apply IH, loop_step_inv.
Qed.

Lemma loop_step_remaining mode r tid i t' :
  team (loop_step mode r tid) !! i = Some t' ->
  exists t, team r !! i = Some t /\
    length (iterations t')
    = (length (iterations t) - (if decide (tid = i) then 1 else 0))%nat.
Proof.
  unfold loop_step. destruct (team r !! tid) as [t|] eqn:Htid.
  - assert (forall t1,
      length (iterations t1) = pred (length (iterations t)) ->
      <[tid := t1]> (team r) !! i = Some t' ->
      exists t0, team r !! i = Some t0 /\
        length (iterations t')
        = (length (iterations t0) - (if decide (tid = i) then 1 else 0))%nat) as Hgen.
    { intros t1 Hlen Hi. destruct (decide (tid = i)) as [->|Hne].
      - rewrite list_lookup_insert_eq in Hi by (by eapply lookup_lt_Some).
        simplify_eq. exists t. split; [done|]. lia.
      - rewrite list_lookup_insert_ne in Hi by done.
        exists t'. split; [done|]. lia. }
    destruct mode; simpl; apply Hgen;
      auto using iteration_shared_length, iteration_reduction_length.
  - intros Hi. exists t'. split; [done|]. case_decide; [congruence|lia].
Qed.

Lemma loop_run_remaining mode sched r i t' :
  team (fold_left (loop_step mode) sched r) !! i = Some t' ->
  exists t, team r !! i = Some t /\
    length (iterations t')
    = (length (iterations t) - count_occ Nat.eq_dec sched i)%nat.
Proof.
  revert r. induction sched as [|tid sched IH]; intros r H; simpl in *.
  - exists t'. split; [done|]. lia.
  - apply IH in H as (t1 & H1 & Hlen1).
    apply loop_step_remaining in H1 as (t & Ht & Hlen).
    exists t. split; [done|]. rewrite Hlen1, Hlen.
    destruct (Nat.eq_dec tid i), (decide (tid = i)); try congruence; lia.
Qed.

(** ** The parallel region: chunks, merges and the join *)

Lemma split_chunks_length sizes l : length (split_chunks sizes l) = length sizes.
Proof. revert l. induction sizes as [|n sizes IH]; intros l; simpl; [done|]. by rewrite IH. Qed.

Lemma split_chunks_concat sizes l :
  concat (split_chunks sizes l) = take (sum_list sizes) l.
Proof.
  revert l. induction sizes as [|n sizes IH]; intros l; simpl.
  - by rewrite take_0.
  - rewrite IH. apply take_take_drop.
Qed.

Lemma split_chunks_lookup sizes l i c :
  split_chunks sizes l !! i = Some c ->
  exists size, sizes !! i = Some size /\ (length c <= size)%nat.
Proof.
  revert l i. induction sizes as [|n sizes IH]; intros l [|i] H; simplify_eq/=.
  - exists n. split; [done|]. rewrite length_take. lia.
  - eauto.
Qed.

Lemma concat_fmap_perm {A B} (f : A -> list B) l1 l2 :
  Permutation l1 l2 -> Permutation (concat (f <$> l1)) (concat (f <$> l2)).
Proof.
  induction 1 as [|x l1 l2 _ IH|x y l|l1 l2 l3 _ IH1 _ IH2]; simpl.
  - done.
  - by apply Permutation_app_head.
  - rewrite !app_assoc. apply Permutation_app_tail, Permutation_app_comm.
  - by etrans.
Qed.

Lemma fmap_lookup_seq {A B} (f : A -> B) (d : B) (l : list A) :
  (fun i => default d (f <$> l !! i)) <$> seq 0 (length l) = f <$> l.
Proof.
  apply list_eq. intros i. rewrite !list_lookup_fmap.
  destruct (decide (i < length l)%nat) as [Hlt|Hge].
  - rewrite lookup_seq_lt by done. simpl.
    destruct (lookup_lt_is_Some_2 l i Hlt) as [x Hx]. by rewrite Hx.
  - rewrite lookup_seq_ge by lia. by rewrite lookup_ge_None_2 by lia.
Qed.

Lemma word_entries_concat chunks :
  concat (word_entries <$> chunks) = word_entries (concat chunks).
Proof.
  induction chunks as [|c chunks IH]; [done|].
  rewrite fmap_cons. simpl concat. by rewrite word_entries_app, IH.
Qed.

Lemma count_nonempty_concat chunks :
  team_pending ((fun c => mkThread c ∅ 0) <$> chunks) = count_nonempty (concat chunks).
Proof.
  induction chunks as [|c chunks IH]; [done|].
  rewrite fmap_cons. simpl concat. simpl team_pending.
  rewrite count_nonempty_app, IH. unfold thread_pending. simpl. lia.
Qed.

Lemma merge_step_frame r tid :
  team (merge_step r tid) = team r /\
  totalWordCount (merge_step r tid) = totalWordCount r.
Proof. unfold merge_step. by destruct (team r !! tid). Qed.

(** After the barrier every merge replays the increments of the chunk of
    the merging thread. *)
Lemma merge_run_spec (entries : nat -> list Entry) order r :
  (forall tid t wf, team r !! tid = Some t ->
     replay (map_to_list (localMap t)) wf = replay (entries tid) wf) ->
  (forall tid wf, team r !! tid = None -> replay (entries tid) wf = wf) ->
  team (fold_left merge_step order r) = team r /\
  totalWordCount (fold_left merge_step order r) = totalWordCount r /\
  wordFreq (fold_left merge_step order r)
  = replay (concat (entries <$> order)) (wordFreq r).
Proof.
  revert r. induction order as [|tid order IH]; intros r Hsome Hnone; [done|].
  simpl. destruct (merge_step_frame r tid) as [Hteam Htot].
  destruct (IH (merge_step r tid)) as (H1 & H2 & H3).
  - intros i t wf. rewrite Hteam. apply Hsome.
  - intros i wf. rewrite Hteam. apply Hnone.
  - rewrite H1, H2, H3, Hteam, Htot. repeat split.
    rewrite replay_app. f_equal. unfold merge_step.
    destruct (team r !! tid) as [t|] eqn:Hi; simpl.
    + by apply Hsome.
    + symmetry. by apply Hnone.
Qed.

Lemma reduction_join ts a :
  a = wrap64 a ->
  (forall t, t ∈ ts -> iterations t = []) ->
  fold_left (fun total t => wrap64 (total + privateTotal t)) ts a
  = wrap64 (a + team_pending ts).
Proof.
  revert a. induction ts as [|t ts IH]; intros a Ha Hdone; simpl.
  - by rewrite Z.add_0_r.
  - rewrite IH; [|by rewrite wrap64_idemp|intros; apply Hdone; by right].
    rewrite wrap64_add_l. f_equal. unfold thread_pending.
    rewrite (Hdone t) by left. change (count_nonempty []) with 0. lia.
Qed.

Lemma team_pending_done ts :
  (forall t, t ∈ ts -> iterations t = []) ->
  (forall p, p ∈ privateTotal <$> ts -> p = 0) ->
  team_pending ts = 0.
Proof.
  induction ts as [|t ts IH]; intros Hdone Hp; simpl; [done|].
  rewrite IH; [|intros; apply Hdone; by right|intros; apply Hp; simpl; by right].
  unfold thread_pending. rewrite (Hdone t) by left.
  rewrite (Hp (privateTotal t)) by (simpl; left). done.
Qed.

(** ** The parallel region against the sequential loop *)

(** Under every schedule the runtime can produce, and with each of the
    three synchronisation methods, a parallel region over [range] builds
    the map and the total of the sequential loop over [range]. *)
Lemma parallel_region_spec mode s range :
  valid_schedule s (length range) ->
  parallel_region mode s range
  = (replay (word_entries range) ∅, wrap64 (count_nonempty range)).
Proof.
  intros (_ & Hsum & Hall & Hperm). unfold parallel_region.
  set (chunks := split_chunks (chunk_sizes s) range).
  set (r0 := mkRegion ((fun c => mkThread c ∅ 0) <$> chunks) ∅ 0).
  change (map (fun c => mkThread c ∅ 0) chunks) with ((fun c => mkThread c ∅ 0) <$> chunks).
  fold r0.
  set (r1 := fold_left (loop_step mode) (interleaving s) r0).
  assert (concat chunks = range) as Hchunks.
  { unfold chunks. rewrite split_chunks_concat, Hsum. by apply take_ge. }
  destruct (loop_run_inv mode (interleaving s) r0 r0 (loop_inv_refl mode r0))
    as (Hg & Hw & Hp & Hr & Hs & Ht). fold r1 in Hg, Hw, Hp, Hr, Hs, Ht.
  (* every thread has run all its iterations at the barrier *)
  assert (forall tid t, team r1 !! tid = Some t ->
            iterations t = [] /\
            exists c, chunks !! tid = Some c /\ localMap t = replay (word_entries c) ∅)
    as Hdone.
  { intros tid t Htid.
    destruct (loop_run_remaining mode _ _ _ _ Htid) as (t0 & Ht0 & Hlen).
    simpl in Ht0. rewrite list_lookup_fmap in Ht0.
    destruct (chunks !! tid) as [c|] eqn:Hc; simplify_eq/=.
    destruct (split_chunks_lookup _ _ _ _ Hc) as (size & Hsize & Hle).
    specialize (Hall _ _ Hsize).
    assert (iterations t = []) as Hnil by (apply length_zero_iff_nil; lia).
    split; [done|]. exists c. split; [done|].
    assert (thread_goal <$> team r1 !! tid = thread_goal <$> team r0 !! tid) as Hgoal
      by (by rewrite <- !list_lookup_fmap, Hg).
    rewrite Htid in Hgoal. simpl in Hgoal. rewrite list_lookup_fmap, Hc in Hgoal.
    simpl in Hgoal. unfold thread_goal in Hgoal. simpl in Hgoal.
    rewrite Hnil in Hgoal. by simplify_eq/=. }
  assert (length (team r1) = length chunks) as Hlen1.
  { rewrite <- (length_fmap thread_goal), Hg, length_fmap. simpl. by rewrite length_fmap. }
  set (entries := fun tid => default [] (word_entries <$> chunks !! tid)).
  destruct (merge_run_spec entries (merge_order s) r1) as (Hteam & Htot & Hfreq).
  { intros tid t wf Htid. destruct (Hdone _ _ Htid) as (_ & c & Hc & ->).
    unfold entries. rewrite Hc. simpl. apply replay_map_to_list. }
  { intros tid wf Htid. unfold entries.
    rewrite lookup_ge_None_2; [done|]. apply lookup_ge_None_1 in Htid. lia. }
  assert (wordFreq (fold_left merge_step (merge_order s) r1)
          = replay (word_entries range) ∅) as Hmap.
  { rewrite Hfreq, Hw. simpl.
    rewrite (replay_perm _ (concat (entries <$> seq 0 (length chunks)))).
    - unfold entries. by rewrite fmap_lookup_seq, word_entries_concat, Hchunks.
    - apply concat_fmap_perm. unfold chunks. rewrite split_chunks_length. apply Hperm. }
  assert (forall t, t ∈ team r1 -> iterations t = []) as Hiter.
  { intros t [tid Htid]%list_elem_of_lookup. by destruct (Hdone _ _ Htid). }
  assert (team_pending (team r0) = count_nonempty range) as Hpend0.
  { simpl. by rewrite count_nonempty_concat, Hchunks. }
  rewrite Hpend0 in Hp. simpl in Hp.
  assert (mode = Reduction \/ mode <> Reduction) as [->|Hm] by (destruct mode; auto).
  - rewrite Hmap, Hteam, Htot. f_equal.
    rewrite Hr by done. simpl.
    rewrite reduction_join by done.
    rewrite (Hr eq_refl) in Hp. simpl in Hp. rewrite Hp. f_equal.
  - assert (team_pending (team r1) = 0) as Hz.
    { apply team_pending_done; [done|]. rewrite Hs by done. simpl.
      rewrite <- list_fmap_compose. intros p (c & -> & _)%list_elem_of_fmap. done. }
    rewrite Hz, Z.add_0_r in Hp. rewrite <- Ht in Hp by done.
    change (0 + count_nonempty range) with (count_nonempty range) in Hp.
    rewrite <- Hp, <- Htot, <- Hmap. by destruct mode.
Qed.

(** ** Every team size has a schedule *)

Lemma static_chunk_sizes_sum q r W :
  sum_list (map (fun tid => (q + (if tid <? r then 1 else 0))%nat) (seq 0 W))
  = (W * q + Nat.min r W)%nat.
Proof.
  induction W as [|W IH]; [simpl; lia|].
  rewrite seq_S, map_app, sum_list_with_app, IH. simpl.
  destruct (Nat.ltb_spec W r); lia.
Qed.

Lemma count_occ_chunks_interleaved k sizes tid size :
  sizes !! tid = Some size ->
  (size <= count_occ Nat.eq_dec
             (concat (imap (fun i sz => repeat (k + i)%nat sz) sizes)) (k + tid)%nat)%nat.
Proof.
  revert k tid. induction sizes as [|sz sizes IH]; intros k [|tid] H; simplify_eq/=.
  - rewrite count_occ_app, Nat.add_0_r, count_occ_repeat_eq by done. lia.
  - rewrite count_occ_app.
    specialize (IH (S k) tid H).
    erewrite (imap_ext _ (fun i sz => repeat (S k + i)%nat sz)); last first.
    { intros i x _. simpl. f_equal. lia. }
    replace (k + S tid)%nat with (S k + tid)%nat by lia. lia.
Qed.

Lemma static_schedule_valid W n :
  (0 < W)%nat -> valid_schedule (static_schedule W n) n.
Proof.
  intros HW. unfold valid_schedule, static_schedule, num_threads, static_chunk_sizes. simpl.
  rewrite length_map, length_seq. repeat split.
  - done.
  - rewrite static_chunk_sizes_sum.
    pose proof (Nat.div_mod_eq n W). pose proof (Nat.mod_upper_bound n W). lia.
  - intros tid size H. by apply (count_occ_chunks_interleaved 0) in H.
  - done.
Qed.

(** ** The member functions of the parallel counter *)

Lemma buildWordMapFromList_spec s rawWords self :
  valid_schedule s (length (loop_range rawWords)) ->
  buildWordMapFromList s rawWords self
  = (replay (word_entries (loop_range rawWords)) ∅,
     mkCounter (executionTime self) (wrap64 (count_nonempty (loop_range rawWords)))
               (uniqueWords self) (syncMethod self)).
Proof.
  intros Hs. unfold buildWordMapFromList. destruct rawWords as [|w ws]; [done|].
  simpl syncMethod. by rewrite parallel_region_spec.
Qed.

Lemma par_countWords_spec s startTime endTime text self :
  valid_schedule s (length (loop_range (extract_words text))) ->
  countWords s startTime endTime text self
  = (replay (word_entries (loop_range (extract_words text))) ∅,
     mkCounter (endTime - startTime)
               (wrap64 (count_nonempty (loop_range (extract_words text))))
               (Z.of_nat (size (replay (word_entries (loop_range (extract_words text))) ∅)))
               (syncMethod self)).
Proof. intros Hs. unfold countWords. by rewrite buildWordMapFromList_spec. Qed.

Lemma par_countWordsFromFile_spec s startTime endTime filename content self w :
  files w !! filename = Some content ->
  valid_schedule s (length (loop_range (extract_words content))) ->
  countWordsFromFile s startTime endTime filename self w
  = (replay (word_entries (loop_range (extract_words content))) ∅,
     mkCounter (endTime - startTime)
               (wrap64 (count_nonempty (loop_range (extract_words content))))
               (Z.of_nat (size (replay (word_entries (loop_range (extract_words content))) ∅)))
               (syncMethod self),
     w).
Proof.
  intros Hf Hs. unfold countWordsFromFile. rewrite Hf.
  by rewrite buildWordMapFromList_spec.
Qed.

Lemma seq_countWords_spec startTime endTime text self :
  Sequential.countWords startTime endTime text self
  = (replay (word_entries (extract_words text)) ∅,
     Sequential.mkCounter (endTime - startTime)
       (wrap64 (count_nonempty (extract_words text)))
       (Z.of_nat (size (replay (word_entries (extract_words text)) ∅)))).
Proof. unfold Sequential.countWords. by rewrite count_stream_spec. Qed.

Lemma seq_countWordsFromFile_spec startTime endTime filename content self w :
  files w !! filename = Some content ->
  Sequential.countWordsFromFile startTime endTime filename self w
  = (replay (word_entries (extract_words content)) ∅,
     Sequential.mkCounter (endTime - startTime)
       (wrap64 (count_nonempty (extract_words content)))
       (Z.of_nat (size (replay (word_entries (extract_words content)) ∅))),
     w).
Proof.
  intros Hf. unfold Sequential.countWordsFromFile. rewrite Hf.
  by rewrite count_stream_spec.
Qed.

(** The [int] loop bound: below 2^31 words the loop visits all of them. *)
Lemma static_cast_int_small z : 0 <= z < 2 ^ 31 -> static_cast_int z = z.
Proof. intros H. unfold static_cast_int. rewrite Z.mod_small; lia. Qed.

Lemma static_cast_int_range z : - 2 ^ 31 <= static_cast_int z < 2 ^ 31.
Proof.
  unfold static_cast_int. pose proof (Z.mod_pos_bound (z + 2 ^ 31) (2 ^ 32)). lia.
Qed.

Lemma loop_range_small rawWords :
  Z.of_nat (length rawWords) < 2 ^ 31 -> loop_range rawWords = rawWords.
Proof.
  intros H. unfold loop_range. rewrite static_cast_int_small by lia.
  rewrite Nat2Z.id. by apply take_ge.
Qed.

Lemma loop_range_length rawWords : Z.of_nat (length (loop_range rawWords)) < 2 ^ 31.
Proof.
  unfold loop_range. rewrite length_take.
  pose proof (static_cast_int_range (Z.of_nat (length rawWords))). lia.
Qed.

(** ** Sums of counts *)

Lemma foldr_add_perm (l1 l2 : list Z) :
  Permutation l1 l2 -> foldr Z.add 0 l1 = foldr Z.add 0 l2.
Proof. induction 1; simpl; lia. Qed.

Lemma sum_counts_empty : sum_counts ∅ = 0.
Proof. unfold sum_counts. by rewrite map_to_list_empty. Qed.

Lemma sum_counts_insert_fresh (m : WordMap) k v :
  m !! k = None -> sum_counts (<[k := v]> m) = v + sum_counts m.
Proof.
  intros H. unfold sum_counts.
  rewrite (foldr_add_perm _ ((k, v) :: map_to_list m).*2); [done|].
  by apply fmap_Permutation, map_to_list_insert.
Qed.

Lemma sum_counts_insert_present (m : WordMap) k u v :
  m !! k = Some u -> sum_counts (<[k := v]> m) = sum_counts m - u + v.
Proof.
  intros H. rewrite <- insert_delete_eq.
  rewrite sum_counts_insert_fresh by apply lookup_delete_eq.
  assert (sum_counts m = u + sum_counts (delete k m)) as ->; [|lia].
  unfold sum_counts.
  rewrite (foldr_add_perm (map_to_list m).*2 ((k, u) :: map_to_list (delete k m)).*2); [done|].
  apply fmap_Permutation. symmetry. by apply map_to_list_delete.
Qed.

(** A map built by [l] increments of 1, fewer than 2^64 of them, has
    positive counts that sum to the number of increments. *)
Lemma sum_counts_increments (l : list Entry) :
  Forall (fun e => e.2 = 1) l ->
  Z.of_nat (length l) < 2 ^ 64 ->
  sum_counts (replay l ∅) = Z.of_nat (length l) /\
  forall k v, replay l ∅ !! k = Some v -> 0 < v <= Z.of_nat (length l).
Proof.
  induction l as [|[k one] l IH] using rev_ind; intros Hone Hlen.
  - change (replay [] ∅) with (∅ : WordMap).
    split; [apply sum_counts_empty|]. intros k v. by rewrite lookup_empty.
  - apply Forall_app in Hone as [Hl Hk]. inversion Hk as [|? ? Hone' _]. simpl in Hone'. subst.
    rewrite length_app in *. simpl in *.
    destruct IH as [IHsum IHpos]; [done|lia|].
    rewrite replay_app. change (replay [(k, 1)] ?m) with (map_add m k 1).
    set (m := replay l ∅) in *. unfold map_add.
    destruct (m !! k) as [u|] eqn:Hu; simpl.
    + pose proof (IHpos _ _ Hu). rewrite wrap64_small by lia. split.
      * erewrite sum_counts_insert_present by done. lia.
      * intros j v. rewrite lookup_insert. case_decide; intros Hj; simplify_eq; [lia|].
        pose proof (IHpos _ _ Hj). lia.
    + rewrite wrap64_small by lia. split.
      * rewrite sum_counts_insert_fresh by done. lia.
      * intros j v. rewrite lookup_insert. case_decide; intros Hj; simplify_eq; [lia|].
        pose proof (IHpos _ _ Hj). lia.
Qed.

Lemma word_entries_ones ws : Forall (fun e => e.2 = 1) (word_entries ws).
Proof. unfold word_entries. apply Forall_forall. by intros e (w & -> & _)%list_elem_of_fmap. Qed.

Lemma sum_counts_words ws :
  count_nonempty ws < 2 ^ 64 ->
  sum_counts (replay (word_entries ws) ∅) = count_nonempty ws.
Proof.
  intros H. rewrite <- length_word_entries in *.
  by apply sum_counts_increments; [apply word_entries_ones|].
Qed.

(** ** The tokenizer reads at most one word per character *)

Lemma is_empty_append_char word c : is_empty (word +:+ String c "") = false.
Proof. by destruct word. Qed.

Lemma read_words_length text word :
  (length (read_words text word)
   <= String.length text + (if is_empty word then 0 else 1))%nat.
Proof.
  revert word. induction text as [|c rest IH]; intros word; simpl.
  - destruct (is_empty word); simpl; lia.
  - destruct (isspace (uchar c)).
    + destruct (is_empty word); simpl; specialize (IH ""%string); simpl in IH; lia.
    + specialize (IH (word +:+ String c "")). rewrite is_empty_append_char in IH.
      destruct (is_empty word); lia.
Qed.

Lemma extract_words_length text : (length (extract_words text) <= String.length text)%nat.
Proof. unfold extract_words. pose proof (read_words_length text ""). simpl in *. lia. Qed.

(** * The claims *)

(** C4. For every token, [normalizeWord] (the same in both classes) returns
    the ASCII-alphabetic characters of the token, in order and lowercased,
    and nothing else: normalizeWord("Hello,") = "hello", normalizeWord("123")
    = "" and normalizeWord("") = "". A token that normalizes to the empty
    string changes neither the frequency map nor the total: the sequential
    loop gives the same result with the token removed from the word list,
    and a loop iteration of a parallel thread on it leaves the local map,
    the private total and the shared total as they were. *)
Theorem normalize_keeps_letters_lowercased (token : string) :
  Sequential.normalizeWord token = normalize_spec token /\
  Parallel.normalizeWord token = normalize_spec token /\
  Sequential.normalizeWord "Hello," = "hello"%string /\
  Sequential.normalizeWord "123" = ""%string /\
  Sequential.normalizeWord "" = ""%string /\
  (normalize_spec token = ""%string ->
   (forall before after st,
      fold_left Sequential.count_word (before ++ token :: after) st
      = fold_left Sequential.count_word (before ++ after) st) /\
   (forall rest lm p,
      iteration_reduction (mkThread (token :: rest) lm p) = mkThread rest lm p) /\
   (forall mode rest lm p total,
      iteration_shared mode (mkThread (token :: rest) lm p) total
      = (mkThread rest lm p, total))).
Proof.
  split; [apply seq_normalize_spec|].
  split; [by rewrite par_normalize_seq, seq_normalize_spec|].
  do 3 (split; [reflexivity|]).
  intros Hempty. rewrite <- seq_normalize_spec in Hempty. repeat split.
  - intros before after st. rewrite !fold_left_app. simpl.
    unfold Sequential.count_word at 2. by rewrite Hempty.
  - intros rest lm p. unfold iteration_reduction. simpl.
    by rewrite par_normalize_seq, Hempty.
  - intros mode rest lm p total. unfold iteration_shared. simpl.
    by rewrite par_normalize_seq, Hempty.
Qed.

Lemma normalize_keeps_letters_lowercased_witness :
  normalize_spec "123" = ""%string /\
  fold_left Sequential.count_word (["ab"%string] ++ "123"%string :: ["cd"%string]) (∅, 0)
  = fold_left Sequential.count_word (["ab"%string] ++ ["cd"%string]) (∅, 0).
Proof.
  split; [reflexivity|].
  apply (normalize_keeps_letters_lowercased "123"). reflexivity.
Defined.

(** C5. [countWords] on the text "the Cat sat on the MAT" returns the map
    the -> 2, cat -> 1, sat -> 1, on -> 1, mat -> 1 and leaves totalWords = 6
    and uniqueWords = 5 in the counter: in the sequential class, and in the
    parallel class under every schedule of the six loop iterations and with
    every synchronisation method. *)
Theorem countWords_the_cat_sat (startTime endTime : Q)
    (cs : Sequential.WordCounterSequential) (cp : WordCounterParallel) (s : Schedule) :
  valid_schedule s 6 ->
  Sequential.countWords startTime endTime "the Cat sat on the MAT" cs
  = ({["the"%string := 2; "cat"%string := 1; "sat"%string := 1;
       "on"%string := 1; "mat"%string := 1]},
     Sequential.mkCounter (endTime - startTime) 6 5) /\
  countWords s startTime endTime "the Cat sat on the MAT" cp
  = ({["the"%string := 2; "cat"%string := 1; "sat"%string := 1;
       "on"%string := 1; "mat"%string := 1]},
     mkCounter (endTime - startTime) 6 5 (syncMethod cp)).
Proof.
  intros Hs.
  assert (loop_range (extract_words "the Cat sat on the MAT")
          = extract_words "the Cat sat on the MAT") as Hrange by reflexivity.
  assert (replay (word_entries (extract_words "the Cat sat on the MAT")) ∅
          = ({["the"%string := 2; "cat"%string := 1; "sat"%string := 1;
               "on"%string := 1; "mat"%string := 1]} : WordMap)) as Hmap
    by (vm_compute; reflexivity).
  assert (wrap64 (count_nonempty (extract_words "the Cat sat on the MAT")) = 6) as Hcount
    by reflexivity.
  split.
  - rewrite seq_countWords_spec, Hmap, Hcount. reflexivity.
  - rewrite par_countWords_spec by (rewrite Hrange; exact Hs).
    rewrite Hrange, Hmap, Hcount. reflexivity.
Qed.

Lemma countWords_the_cat_sat_witness :
  valid_schedule (static_schedule 3 6) 6 /\
  countWords (static_schedule 3 6) 0 1 "the Cat sat on the MAT" (create Atomic)
  = ({["the"%string := 2; "cat"%string := 1; "sat"%string := 1;
       "on"%string := 1; "mat"%string := 1]},
     mkCounter (1 - 0) 6 5 Atomic).
Proof.
  split; [apply static_schedule_valid; lia|].
  apply (countWords_the_cat_sat 0 1 Sequential.create (create Atomic) (static_schedule 3 6)).
  apply static_schedule_valid; lia.
Defined.

(** C1. For every token list and every worker count, [buildWordMapFromList]
    run with the reduction, the atomic and the critical method, each under
    any schedule the runtime can produce for that many threads, returns the
    same frequency map and leaves the same totalWords. *)
Theorem sync_methods_agree (rawWords : list string) (W : nat)
    (s_red s_atom s_crit : Schedule) (e1 e2 e3 : Q) (t1 t2 t3 u1 u2 u3 : Z) :
  num_threads s_red = W -> num_threads s_atom = W -> num_threads s_crit = W ->
  valid_schedule s_red (length (loop_range rawWords)) ->
  valid_schedule s_atom (length (loop_range rawWords)) ->
  valid_schedule s_crit (length (loop_range rawWords)) ->
  let red := buildWordMapFromList s_red rawWords (mkCounter e1 t1 u1 Reduction) in
  let atom := buildWordMapFromList s_atom rawWords (mkCounter e2 t2 u2 Atomic) in
  let crit := buildWordMapFromList s_crit rawWords (mkCounter e3 t3 u3 Critical) in
  red.1 = atom.1 /\ atom.1 = crit.1 /\
  totalWords red.2 = totalWords atom.2 /\ totalWords atom.2 = totalWords crit.2.
Proof.
  intros _ _ _ Hr Ha Hc. simpl.
  by rewrite !buildWordMapFromList_spec.
Qed.

Lemma sync_methods_agree_witness :
  let rawWords := ["the"; "Cat"; "sat"; "on"; "the"; "MAT"]%string in
  let s_red := static_schedule 2 6 in
  let s_atom := mkSchedule [3; 3]%nat [0; 1; 0; 1; 0; 1]%nat [1; 0]%nat in
  let s_crit := mkSchedule [4; 2]%nat [1; 0; 0; 1; 0; 0]%nat [0; 1]%nat in
  (valid_schedule s_red 6 /\ valid_schedule s_atom 6 /\ valid_schedule s_crit 6) /\
  (buildWordMapFromList s_red rawWords (create Reduction)).1
  = (buildWordMapFromList s_atom rawWords (create Atomic)).1 /\
  totalWords (buildWordMapFromList s_atom rawWords (create Atomic)).2
  = totalWords (buildWordMapFromList s_crit rawWords (create Critical)).2.
Proof.
  intros rawWords s_red s_atom s_crit.
  assert (valid_schedule s_red 6) as Hr by (apply static_schedule_valid; lia).
  assert (valid_schedule s_atom 6) as Ha.
  { unfold valid_schedule, num_threads. simpl. repeat split; [lia| |apply perm_swap].
    intros [|[|tid]] size H; simplify_eq/=; lia. }
  assert (valid_schedule s_crit 6) as Hc.
  { unfold valid_schedule, num_threads. simpl. repeat split; [lia| |reflexivity].
    intros [|[|tid]] size H; simplify_eq/=; lia. }
  split; [done|].
  destruct (sync_methods_agree rawWords 2 s_red s_atom s_crit 0 0 0 0 0 0 0 0 0
              eq_refl eq_refl eq_refl Hr Ha Hc) as (H1 & _ & _ & H4).
  split; [exact H1|exact H4].
Defined.

(** The region runs: three methods, three schedules, one result. *)
Example parallel_region_runs :
  let range := ["the"; "Cat"; "sat"; "on"; "the"; "MAT"]%string in
  let expected : WordMap * Z :=
    ({["the"%string := 2; "cat"%string := 1; "sat"%string := 1;
       "on"%string := 1; "mat"%string := 1]}, 6) in
  parallel_region Reduction (static_schedule 2 6) range = expected /\
  parallel_region Atomic
    (mkSchedule [3; 3]%nat [0; 1; 0; 1; 0; 1]%nat [1; 0]%nat) range = expected /\
  parallel_region Critical
    (mkSchedule [4; 2]%nat [1; 0; 0; 1; 0; 0]%nat [0; 1]%nat) range = expected.
Proof. intros range expected. repeat split; vm_compute; reflexivity. Qed.

(** A schedule that releases the barrier too early loses words: validity
    of the schedule is what the barrier of the [omp for] provides. *)
Example early_barrier_loses_words :
  (parallel_region Atomic (mkSchedule [2]%nat [0]%nat [0]%nat) ["a"; "b"]%string).1
  = {["a"%string := 1]}.
Proof. vm_compute. reflexivity. Qed.

(** C7. When the file cannot be opened, [countWordsFromFile] (in both
    classes, the parallel one under any schedule) prints
    "Error: Cannot open file <filename>" on the error console, returns an
    empty frequency map and sets the recorded execution time to zero. It
    returns to its caller as on every path (the function of the embedding is
    total and has no exceptional outcome); the standard output and the
    files are untouched. *)
Theorem countWordsFromFile_unopenable (filename : string) (w : World)
    (startTime endTime : Q) (s : Schedule)
    (cs : Sequential.WordCounterSequential) (cp : WordCounterParallel) :
  files w !! filename = None ->
  let '(ms, cs', ws) := Sequential.countWordsFromFile startTime endTime filename cs w in
  let '(mp, cp', wp) := countWordsFromFile s startTime endTime filename cp w in
  (ms = ∅ /\ Sequential.getExecutionTime cs' = 0%Q /\
   cerr ws = cerr w +:+ "Error: Cannot open file " +:+ filename +:+ endl /\
   cout ws = cout w /\ files ws = files w) /\
  (mp = ∅ /\ getExecutionTime cp' = 0%Q /\
   cerr wp = cerr w +:+ "Error: Cannot open file " +:+ filename +:+ endl /\
   cout wp = cout w /\ files wp = files w).
Proof.
  intros Hf. unfold Sequential.countWordsFromFile, countWordsFromFile.
  rewrite Hf. simpl. done.
Qed.

Lemma countWordsFromFile_unopenable_witness :
  let w := mkWorld {["in.txt"%string := "a b"%string]} (fun _ => true) "" "" in
  files w !! "missing.txt"%string = None /\
  (Sequential.countWordsFromFile 0 1 "missing.txt" Sequential.create w).1.1 = ∅.
Proof.
  intros w. split; [reflexivity|].
  pose proof (countWordsFromFile_unopenable "missing.txt" w 0 1 (static_schedule 1 0)
                Sequential.create (create Reduction) eq_refl) as H.
  destruct (Sequential.countWordsFromFile 0 1 "missing.txt" Sequential.create w)
    as [[ms cs'] ws].
  destruct (countWordsFromFile (static_schedule 1 0) 0 1 "missing.txt" (create Reduction) w)
    as [[mp cp'] wp].
  exact (proj1 (proj1 H)).
Defined.

(** C10. When [countWordsFromFile] fails to open the file, the only field
    of the counter it changes is the execution time, which becomes zero:
    totalWords and uniqueWords (and the synchronisation method of the
    parallel class) keep their values, so that getTotalWords and
    getUniqueWords return what the previous counting operation left, or
    the zeros of the constructor if there was none. *)
Theorem failed_open_keeps_counts (filename : string) (w : World)
    (startTime endTime : Q) (s : Schedule)
    (cs : Sequential.WordCounterSequential) (cp : WordCounterParallel) :
  files w !! filename = None ->
  let cs' := (Sequential.countWordsFromFile startTime endTime filename cs w).1.2 in
  let cp' := (countWordsFromFile s startTime endTime filename cp w).1.2 in
  let cs0 := (Sequential.countWordsFromFile startTime endTime filename Sequential.create w).1.2 in
  let cp0 mode := (countWordsFromFile s startTime endTime filename (create mode) w).1.2 in
  cs' = Sequential.mkCounter 0%Q (Sequential.totalWords cs) (Sequential.uniqueWords cs) /\
  Sequential.getTotalWords cs' = Sequential.getTotalWords cs /\
  Sequential.getUniqueWords cs' = Sequential.getUniqueWords cs /\
  cp' = mkCounter 0%Q (totalWords cp) (uniqueWords cp) (syncMethod cp) /\
  getTotalWords cp' = getTotalWords cp /\
  getUniqueWords cp' = getUniqueWords cp /\
  (Sequential.getTotalWords cs0 = 0 /\ Sequential.getUniqueWords cs0 = 0) /\
  (forall mode, getTotalWords (cp0 mode) = 0 /\ getUniqueWords (cp0 mode) = 0).
Proof.
  intros Hf. unfold Sequential.countWordsFromFile, countWordsFromFile.
  rewrite Hf. simpl. done.
Qed.

Lemma failed_open_keeps_counts_witness :
  let w := mkWorld ∅ (fun _ => true) "" "" in
  let c1 := (Sequential.countWords 0 1 "a b a" Sequential.create).2 in
  files w !! "missing.txt"%string = None /\
  Sequential.getTotalWords c1 = 3 /\
  Sequential.getTotalWords
    (Sequential.countWordsFromFile 2 3 "missing.txt" c1 w).1.2 = 3.
Proof.
  intros w c1. split; [reflexivity|]. split; [reflexivity|].
  pose proof (failed_open_keeps_counts "missing.txt" w 2 3 (static_schedule 1 0)
                c1 (create Reduction) eq_refl) as (_ & H & _).
  exact H.
Defined.

(** C9. Two runs of [countWordsFromFile] on the same counter and the same
    file, the file being the same for the second run as for the first,
    return the same frequency map and leave the same totalWords, whatever
    the clock readings; in the parallel class also whatever the two
    schedules (team sizes included). *)
Theorem countWordsFromFile_twice (filename : string) (w w' : World)
    (start1 end1 start2 end2 : Q) (s1 s2 : Schedule)
    (cs : Sequential.WordCounterSequential) (cp : WordCounterParallel) :
  files w' !! filename = files w !! filename ->
  (forall content, files w !! filename = Some content ->
     valid_schedule s1 (length (loop_range (extract_words content))) /\
     valid_schedule s2 (length (loop_range (extract_words content)))) ->
  let r1 := Sequential.countWordsFromFile start1 end1 filename cs w in
  let r2 := Sequential.countWordsFromFile start2 end2 filename r1.1.2 w' in
  let p1 := countWordsFromFile s1 start1 end1 filename cp w in
  let p2 := countWordsFromFile s2 start2 end2 filename p1.1.2 w' in
  r2.1.1 = r1.1.1 /\
  Sequential.totalWords r2.1.2 = Sequential.totalWords r1.1.2 /\
  p2.1.1 = p1.1.1 /\
  totalWords p2.1.2 = totalWords p1.1.2.
Proof.
  intros Hsame Hvalid. destruct (files w !! filename) as [content|] eqn:Hf.
  - destruct (Hvalid content eq_refl) as [H1 H2]. simpl.
    rewrite (seq_countWordsFromFile_spec _ _ _ content _ w) by done.
    rewrite (seq_countWordsFromFile_spec _ _ _ content _ w') by done.
    rewrite (par_countWordsFromFile_spec _ _ _ _ content _ w) by done.
    rewrite (par_countWordsFromFile_spec _ _ _ _ content _ w') by done.
    done.
  - simpl. unfold Sequential.countWordsFromFile, countWordsFromFile.
    rewrite Hsame, Hf. done.
Qed.

Lemma countWordsFromFile_twice_witness :
  let w := mkWorld {["in.txt"%string := "b a, b"%string]} (fun _ => true) "" "" in
  let s1 := static_schedule 2 3 in
  let s2 := static_schedule 3 3 in
  let p1 := countWordsFromFile s1 0 1 "in.txt" (create Critical) w in
  let p2 := countWordsFromFile s2 5 9 "in.txt" p1.1.2 p1.2 in
  files p1.2 !! "in.txt"%string = files w !! "in.txt"%string /\
  p2.1.1 = p1.1.1 /\ totalWords p2.1.2 = totalWords p1.1.2.
Proof.
  intros w s1 s2 p1 p2.
  assert (files p1.2 !! "in.txt"%string = files w !! "in.txt"%string) as Hsame
    by reflexivity.
  split; [exact Hsame|].
  assert (forall content, files w !! "in.txt"%string = Some content ->
            valid_schedule s1 (length (loop_range (extract_words content))) /\
            valid_schedule s2 (length (loop_range (extract_words content)))) as Hvalid.
  { intros content Hc. assert (content = "b a, b"%string) as -> by (vm_compute in Hc; congruence).
    split; apply (static_schedule_valid _ 3); lia. }
  pose proof (countWordsFromFile_twice "in.txt" w p1.2 0 1 5 9 s1 s2
                Sequential.create (create Critical) Hsame Hvalid) as (_ & _ & H3 & H4).
  split; [exact H3|exact H4].
Defined.

(** ** Totals against the returned map *)

Lemma seq_consistent_words (e : Q) (ws : list string) :
  Z.of_nat (length ws) < 2 ^ 64 ->
  seq_consistent (replay (word_entries ws) ∅)
    (Sequential.mkCounter e (wrap64 (count_nonempty ws))
       (Z.of_nat (size (replay (word_entries ws) ∅)))).
Proof.
  intros H. pose proof (count_nonempty_bounds ws). split; simpl.
  - rewrite wrap64_small by lia. symmetry. apply sum_counts_words. lia.
  - by rewrite size_dom.
Qed.

Lemma par_consistent_words (e : Q) (mode : SyncMethod) (ws : list string) :
  Z.of_nat (length ws) < 2 ^ 64 ->
  par_consistent (replay (word_entries ws) ∅)
    (mkCounter e (wrap64 (count_nonempty ws))
       (Z.of_nat (size (replay (word_entries ws) ∅))) mode).
Proof.
  intros H. pose proof (count_nonempty_bounds ws). split; simpl.
  - rewrite wrap64_small by lia. symmetry. apply sum_counts_words. lia.
  - by rewrite size_dom.
Qed.

(** C3. After every counting operation completes (the merges of the
    parallel region included), totalWords equals the sum of the counts
    over all words of the returned frequency map and uniqueWords equals
    the number of its keys. The counting operations are [countWords] and
    [countWordsFromFile] on a file that opens, in both classes; the text
    and the file are shorter than 2^64 characters, as every [std::string]
    is. The parallel class does so under every schedule and with every
    method. *)
Theorem counts_consistent_after_reading (text filename content : string) (w : World)
    (startTime endTime : Q) (s_text s_file : Schedule)
    (cs : Sequential.WordCounterSequential) (cp : WordCounterParallel) :
  Z.of_nat (String.length text) < 2 ^ 64 ->
  files w !! filename = Some content ->
  Z.of_nat (String.length content) < 2 ^ 64 ->
  valid_schedule s_text (length (loop_range (extract_words text))) ->
  valid_schedule s_file (length (loop_range (extract_words content))) ->
  let r1 := Sequential.countWords startTime endTime text cs in
  let r2 := Sequential.countWordsFromFile startTime endTime filename cs w in
  let p1 := countWords s_text startTime endTime text cp in
  let p2 := countWordsFromFile s_file startTime endTime filename cp w in
  seq_consistent r1.1 r1.2 /\ seq_consistent r2.1.1 r2.1.2 /\
  par_consistent p1.1 p1.2 /\ par_consistent p2.1.1 p2.1.2.
Proof.
  intros Htext Hf Hcontent Hst Hsf r1 r2 p1 p2. subst r1 r2 p1 p2.
  rewrite seq_countWords_spec, (seq_countWordsFromFile_spec _ _ _ content) by done.
  rewrite par_countWords_spec, (par_countWordsFromFile_spec _ _ _ _ content) by done.
  simpl.
  pose proof (extract_words_length text). pose proof (extract_words_length content).
  pose proof (loop_range_length (extract_words text)).
  pose proof (loop_range_length (extract_words content)).
  repeat split_and; first [apply seq_consistent_words|apply par_consistent_words]; lia.
Qed.

Lemma counts_consistent_after_reading_witness :
  let w := mkWorld {["in.txt"%string := "x y x"%string]} (fun _ => true) "" "" in
  (Z.of_nat (String.length "a b") < 2 ^ 64 /\
   files w !! "in.txt"%string = Some "x y x"%string /\
   Z.of_nat (String.length "x y x") < 2 ^ 64 /\
   valid_schedule (static_schedule 2 2) 2 /\ valid_schedule (static_schedule 2 3) 3) /\
  par_consistent
    (countWordsFromFile (static_schedule 2 3) 0 1 "in.txt" (create Atomic) w).1.1
    (countWordsFromFile (static_schedule 2 3) 0 1 "in.txt" (create Atomic) w).1.2.
Proof.
  intros w.
  assert (valid_schedule (static_schedule 2 2) 2) as H2 by (apply static_schedule_valid; lia).
  assert (valid_schedule (static_schedule 2 3) 3) as H3 by (apply static_schedule_valid; lia).
  assert (Z.of_nat (String.length "a b") < 2 ^ 64) as Ha by (simpl; lia).
  assert (Z.of_nat (String.length "x y x") < 2 ^ 64) as Hx by (simpl; lia).
  split; [exact (conj Ha (conj eq_refl (conj Hx (conj H2 H3))))|].
  pose proof (counts_consistent_after_reading "a b" "in.txt" "x y x" w 0 1
                (static_schedule 2 2) (static_schedule 2 3)
                Sequential.create (create Atomic) Ha eq_refl Hx H2 H3) as (_ & _ & _ & H).
  exact H.
Defined.

(** ** A text of 2^31 words *)

Lemma words_2_31_Z : Z.of_nat words_2_31 = 2 ^ 31.
Proof. unfold words_2_31. apply Z2Nat.id. lia. Qed.

Lemma extract_words_repeat n : extract_words (repeat_string n "a ") = repeat "a"%string n.
Proof.
  unfold extract_words. induction n as [|n IH]; [reflexivity|].
  change (repeat_string (S n) "a ")
    with (String "a"%char (String " "%char (repeat_string n "a "))).
  change (read_words (String "a"%char (String " "%char (repeat_string n "a "))) "")
    with ("a"%string :: read_words (repeat_string n "a ") "").
  by rewrite IH.
Qed.

Lemma count_nonempty_repeat n : count_nonempty (repeat "a"%string n) = Z.of_nat n.
Proof.
  induction n as [|n IH]; [reflexivity|].
  change (repeat "a"%string (S n)) with ("a"%string :: repeat "a"%string n).
  rewrite count_nonempty_cons, IH.
  change (is_empty (Sequential.normalizeWord "a")) with false. lia.
Qed.

Lemma word_entries_repeat n :
  word_entries (repeat "a"%string n) = repeat ("a"%string, 1) n.
Proof.
  induction n as [|n IH]; [reflexivity|].
  change (repeat "a"%string (S n)) with ("a"%string :: repeat "a"%string n).
  rewrite word_entries_cons, IH. reflexivity.
Qed.

Lemma replay_repeat_singleton k c n :
  c = wrap64 c ->
  replay (repeat (k, 1) n) {[k := c]} = {[k := wrap64 (c + Z.of_nat n)]}.
Proof.
  revert c. induction n as [|n IH]; intros c Hc.
  - simpl. by rewrite Z.add_0_r, <- Hc.
  - change (replay (repeat (k, 1) (S n)) {[k := c]})
      with (replay (repeat (k, 1) n) (map_add {[k := c]} k 1)).
    unfold map_add. rewrite lookup_singleton_eq. simpl. rewrite insert_singleton_eq.
    rewrite IH by (by rewrite wrap64_idemp). rewrite wrap64_add_l. do 2 f_equal. lia.
Qed.

Lemma replay_repeat_empty k n :
  (0 < n)%nat -> replay (repeat (k, 1) n) ∅ = {[k := wrap64 (Z.of_nat n)]}.
Proof.
  intros Hn. destruct n as [|n]; [lia|].
  change (replay (repeat (k, 1) (S n)) ∅)
    with (replay (repeat (k, 1) n) (map_add ∅ k 1)).
  unfold map_add. rewrite lookup_empty. simpl. rewrite insert_empty.
  rewrite replay_repeat_singleton by (by rewrite wrap64_idemp).
  rewrite wrap64_add_l. do 2 f_equal. lia.
Qed.

Lemma loop_range_2_31 (rawWords : list string) :
  Z.of_nat (length rawWords) = 2 ^ 31 -> loop_range rawWords = [].
Proof.
  intros H. unfold loop_range. rewrite H.
  change (Z.to_nat (static_cast_int (2 ^ 31))) with 0%nat. apply take_0.
Qed.

(** ** Parallel against sequential *)

(** Below 2^31 words the parallel counter returns what the sequential
    counter returns: the map, totalWords and uniqueWords. *)
Lemma parallel_equals_sequential_below_2_31 (text : string) (s : Schedule)
    (startTime endTime : Q)
    (cs : Sequential.WordCounterSequential) (cp : WordCounterParallel) :
  Z.of_nat (length (extract_words text)) < 2 ^ 31 ->
  valid_schedule s (length (extract_words text)) ->
  let seq := Sequential.countWords startTime endTime text cs in
  let par := countWords s startTime endTime text cp in
  par.1 = seq.1 /\
  getTotalWords par.2 = Sequential.getTotalWords seq.2 /\
  getUniqueWords par.2 = Sequential.getUniqueWords seq.2.
Proof.
  intros Hlen Hs seq par. subst seq par.
  rewrite seq_countWords_spec.
  rewrite par_countWords_spec by (by rewrite loop_range_small).
  by rewrite loop_range_small.
Qed.

(** C2 at a text of 2^31 words, "a a a ...": the sequential counter
    counts 2^31 occurrences of "a", the parallel counter, under any
    schedule and with any method, returns the empty map and zero totals:
    the loop bound [static_cast<int>(rawWords.size())] is -2^31 and no
    iteration runs. *)
Theorem parallel_counts_nothing_at_2_31_words (startTime endTime : Q) (s : Schedule)
    (cs : Sequential.WordCounterSequential) (cp : WordCounterParallel) :
  valid_schedule s 0 ->
  Z.of_nat (length (extract_words big_text)) = 2 ^ 31 /\
  Sequential.countWords startTime endTime big_text cs
  = ({["a"%string := 2 ^ 31]}, Sequential.mkCounter (endTime - startTime) (2 ^ 31) 1) /\
  countWords s startTime endTime big_text cp
  = (∅, mkCounter (endTime - startTime) 0 0 (syncMethod cp)).
Proof.
  intros Hs. unfold big_text.
  assert (Z.of_nat (length (extract_words (repeat_string words_2_31 "a "))) = 2 ^ 31)
    as Hlen by (by rewrite extract_words_repeat, repeat_length, words_2_31_Z).
  split; [exact Hlen|]. split.
  - rewrite seq_countWords_spec, extract_words_repeat.
    rewrite word_entries_repeat, count_nonempty_repeat, words_2_31_Z.
    rewrite replay_repeat_empty by (pose proof words_2_31_Z; lia).
    rewrite words_2_31_Z. rewrite map_size_singleton.
    change (wrap64 (2 ^ 31)) with (2 ^ 31). reflexivity.
  - pose proof (loop_range_2_31 _ Hlen) as Hrange.
    rewrite par_countWords_spec by (by rewrite Hrange).
    rewrite Hrange. reflexivity.
Qed.

Lemma parallel_counts_nothing_at_2_31_words_witness :
  valid_schedule (static_schedule 4 0) 0 /\
  countWords (static_schedule 4 0) 0 1 big_text (create Reduction)
  = (∅, mkCounter (1 - 0) 0 0 Reduction).
Proof.
  assert (valid_schedule (static_schedule 4 0) 0) as Hs
    by (apply static_schedule_valid; lia).
  split; [exact Hs|].
  exact (proj2 (proj2 (parallel_counts_nothing_at_2_31_words 0 1 (static_schedule 4 0)
                         Sequential.create (create Reduction) Hs))).
Defined.

(** ** getTopWords *)

Lemma par_getTopWords_seq sort wordMap n :
  getTopWords sort wordMap n = Sequential.getTopWords sort wordMap n.
Proof. reflexivity. Qed.

Lemma by_count_desc_false a b : by_count_desc b a = false <-> b.2 <= a.2.
Proof. unfold by_count_desc. rewrite Z.ltb_ge. done. Qed.

(** The reference sort meets the contract of [std::sort]. *)
Lemma insert_sorted_perm x l : Permutation (insert_sorted by_count_desc x l) (x :: l).
Proof.
  induction l as [|y l IH]; simpl; [done|].
  destruct (by_count_desc y x); [|done].
  rewrite IH. apply perm_swap.
Qed.

Lemma insert_sorted_sorted x l :
  StronglySorted (fun a b => by_count_desc b a = false) l ->
  StronglySorted (fun a b => by_count_desc b a = false) (insert_sorted by_count_desc x l).
Proof.
  induction 1 as [|y l Hl IH Hy]; simpl.
  - repeat constructor.
  - destruct (by_count_desc y x) eqn:Hyx.
    + constructor; [done|].
      rewrite insert_sorted_perm. constructor; [|done].
      apply by_count_desc_false. unfold by_count_desc in Hyx.
      apply Z.ltb_lt in Hyx. lia.
    + constructor; [by constructor|].
      assert (y.2 <= x.2) as Hle by (unfold by_count_desc in Hyx; by apply Z.ltb_ge in Hyx).
      constructor; [by apply by_count_desc_false|].
      eapply Forall_impl; [exact Hy|]. simpl. intros z Hz.
      apply by_count_desc_false. apply by_count_desc_false in Hz. lia.
Qed.

Lemma insertion_sort_contract : std_sort_contract insertion_sort.
Proof.
  intros l. unfold insertion_sort. induction l as [|x l [IHp IHs]]; simpl.
  - split; [done|constructor].
  - split.
    + by rewrite insert_sorted_perm, IHp.
    + by apply insert_sorted_sorted.
Qed.

(** Below 2^31 entries [getTopWords] is the sorted vector, cut to its
    first [n] entries exactly when 0 < n < size. *)
Lemma getTopWords_below_2_31 sort (wordMap : WordMap) (n : Z) :
  std_sort_contract sort ->
  Z.of_nat (size wordMap) < 2 ^ 31 ->
  let sorted := sort by_count_desc (map_to_list wordMap) in
  Permutation sorted (map_to_list wordMap) /\
  StronglySorted (fun a b => b.2 <= a.2) sorted /\
  Sequential.getTopWords sort wordMap n
  = (if (0 <? n) && (n <? Z.of_nat (size wordMap))
     then take (Z.to_nat n) sorted else sorted).
Proof.
  intros Hsort Hsize sorted. destruct (Hsort (map_to_list wordMap)) as [Hperm Hsorted].
  fold sorted in Hperm, Hsorted. split; [done|]. split.
  - clear -Hsorted. induction Hsorted as [|x l _ IH Hx]; constructor; [done|].
    eapply Forall_impl; [exact Hx|]. intros y. apply by_count_desc_false.
  - unfold Sequential.getTopWords. fold sorted.
    rewrite (Permutation_length Hperm), length_map_to_list.
    by rewrite static_cast_int_small by lia.
Qed.

(** The ranking example, for every [std::sort]: two entries, ("a", 5)
    first, then ("b", 3) or ("c", 3). *)
Lemma getTopWords_abc sort :
  std_sort_contract sort ->
  let top := Sequential.getTopWords sort abc_map 2 in
  length top = 2%nat /\
  top !! 0%nat = Some ("a"%string, 5) /\
  (top !! 1%nat = Some ("b"%string, 3) \/ top !! 1%nat = Some ("c"%string, 3)).
Proof.
  intros Hsort top.
  destruct (getTopWords_below_2_31 sort abc_map 2 Hsort) as (Hperm & Hsorted & Htop);
    [by vm_compute|].
  fold top in Htop. rewrite Htop. clear Htop top.
  change ((0 <? 2) && (2 <? Z.of_nat (size abc_map))) with true. cbv iota.
  change (Z.to_nat 2) with 2%nat.
  remember (sort by_count_desc (map_to_list abc_map)) as sorted eqn:Heq. clear Heq.
  change (map_to_list abc_map)
    with [("c"%string, 3); ("a"%string, 5); ("b"%string, 3)] in Hperm.
  pose proof (Permutation_length Hperm) as Hlen.
  destruct sorted as [|x [|y [|z [|? ?]]]]; simplify_eq/=.
  assert (NoDup [x; y; z]) as Hnd.
  { rewrite Hperm. apply (bool_decide_unpack _). by vm_compute. }
  assert (forall e, e ∈ [x; y; z] -> e ∈ [("c"%string, 3); ("a"%string, 5); ("b"%string, 3)])
    as Hin by (intros e; by rewrite Hperm).
  assert (x ∈ [x; y; z]) as Hx by (by left).
  assert (y ∈ [x; y; z]) as Hy by (right; by left).
  assert (z ∈ [x; y; z]) as Hz by (right; right; by left).
  apply Hin in Hx, Hy, Hz.
  apply StronglySorted_inv in Hsorted as [Hyz Hxs].
  apply StronglySorted_inv in Hyz as [_ Hys].
  apply Forall_cons in Hxs as [Hxy Hxs]. apply Forall_cons in Hxs as [Hxz _].
  apply Forall_cons in Hys as [Hyz _].
  apply NoDup_cons in Hnd as [Hx_ Hnd]. apply NoDup_cons in Hnd as [Hy_ _].
  repeat match goal with
         | H : _ ∈ _ :: _ |- _ => apply elem_of_cons in H as [->|H]
         | H : _ ∈ [] |- _ => by apply elem_of_nil in H
         end;
    simpl in *; try lia;
    try (by exfalso; apply Hx_; repeat constructor);
    try (by exfalso; apply Hy_; repeat constructor);
    auto.
Qed.

(** ** A map of 2^31 entries *)

Lemma word_of_pos_inj p q : word_of_pos p = word_of_pos q -> p = q.
Proof.
  revert q. induction p as [p IH|p IH|]; intros [q|q|] H; simplify_eq/=;
    try done; f_equal; by apply IH.
Qed.

Lemma distinct_words_NoDup n : NoDup (distinct_words n).*1.
Proof.
  unfold distinct_words. rewrite <- list_fmap_compose.
  apply NoDup_fmap_2_strong; [|apply NoDup_seq].
  intros i j _ _ H. simpl in H. apply word_of_pos_inj in H.
  by apply SuccNat2Pos.inj in H.
Qed.

Lemma distinct_words_size n :
  size (list_to_map (distinct_words n) : WordMap) = n.
Proof.
  rewrite map_size_list_to_map by apply distinct_words_NoDup.
  unfold distinct_words. by rewrite length_fmap, length_seq.
Qed.

(** C6 at a map of 2^31 entries and n = 10: [getTopWords] (the same in
    both classes, with any [std::sort]) returns all 2^31 entries instead of
    the first 10, the size converted to [int] being -2^31. *)
Theorem getTopWords_keeps_all_at_2_31_entries
    (sort : (Entry -> Entry -> bool) -> list Entry -> list Entry) :
  std_sort_contract sort ->
  Z.of_nat (size big_map) = 2 ^ 31 /\
  Z.of_nat (length (Sequential.getTopWords sort big_map 10)) = 2 ^ 31 /\
  Z.of_nat (length (getTopWords sort big_map 10)) = 2 ^ 31.
Proof.
  intros Hsort.
  assert (Z.of_nat (size big_map) = 2 ^ 31) as Hsize
    by (unfold big_map; by rewrite distinct_words_size, words_2_31_Z).
  split; [exact Hsize|].
  change (getTopWords sort big_map 10) with (Sequential.getTopWords sort big_map 10).
  assert (Z.of_nat (length (Sequential.getTopWords sort big_map 10)) = 2 ^ 31) as H;
    [|exact (conj H H)].
  unfold Sequential.getTopWords.
  destruct (Hsort (map_to_list big_map)) as [Hperm _].
  rewrite (Permutation_length Hperm), length_map_to_list, Hsize.
  change (static_cast_int (2 ^ 31)) with (- 2 ^ 31).
  change ((0 <? 10) && (10 <? - 2 ^ 31)) with false. cbv iota.
  rewrite (Permutation_length Hperm), length_map_to_list. exact Hsize.
Qed.

Lemma getTopWords_keeps_all_at_2_31_entries_witness :
  std_sort_contract insertion_sort /\
  Z.of_nat (length (Sequential.getTopWords insertion_sort big_map 10)) = 2 ^ 31.
Proof.
  split; [exact insertion_sort_contract|].
  exact (proj1 (proj2 (getTopWords_keeps_all_at_2_31_entries insertion_sort
                         insertion_sort_contract))).
Defined.

(** ** saveResults and the drivers *)

Lemma top_words_fold_frame (line : Z -> Entry -> string) topWords w rank :
  let w' := (fold_left (fun st e => (print_cout (line st.2 e) st.1, st.2 + 1))
                       topWords (w, rank)).1 in
  files w' = files w /\ creatable w' = creatable w /\ cerr w' = cerr w.
Proof.
  revert w rank. induction topWords as [|e l IH]; intros w rank; [done|].
  simpl. destruct (IH (print_cout (line rank e) w) (rank + 1)) as (H1 & H2 & H3).
  simpl in *. by rewrite H1, H2, H3.
Qed.

Lemma seq_print_top_words_frame topWords w :
  files (Sequential.print_top_words topWords w) = files w /\
  creatable (Sequential.print_top_words topWords w) = creatable w /\
  cerr (Sequential.print_top_words topWords w) = cerr w.
Proof. apply (top_words_fold_frame Sequential.top_word_line). Qed.

Lemma par_print_top_words_frame topWords w :
  files (print_top_words topWords w) = files w /\
  creatable (print_top_words topWords w) = creatable w /\
  cerr (print_top_words topWords w) = cerr w.
Proof. apply (top_words_fold_frame top_word_line). Qed.

Lemma seq_main_output_unwritable show_fixed sort stoi startTime endTime argv w topN :
  2 <= Z.of_nat (length argv) ->
  (if 3 <? Z.of_nat (length argv) then stoi (Sequential.arg argv 3) else Some 100)
  = Some topN ->
  (Sequential.countWordsFromFile startTime endTime (Sequential.arg argv 1)
     Sequential.create w).1.1 <> ∅ ->
  creatable w (if 2 <? Z.of_nat (length argv) then Sequential.arg argv 2
               else "results/sequential/output.txt"%string) = false ->
  exists w',
    Sequential.main show_fixed sort stoi startTime endTime argv w = Some (0, w') /\
    files w' = files w /\
    cerr w' = cerr w +:+ "Error: Cannot create output file " +:+
              (if 2 <? Z.of_nat (length argv) then Sequential.arg argv 2
               else "results/sequential/output.txt"%string) +:+ endl.
Proof.
  intros Hargc HtopN Hcount Hout. unfold Sequential.main.
  rewrite (proj2 (Z.ltb_ge _ _)) by lia. rewrite HtopN.
  unfold Sequential.countWordsFromFile in *. simpl files in *.
  destruct (files w !! Sequential.arg argv 1) as [content|] eqn:Hf; [|done].
  simpl in Hcount. rewrite bool_decide_eq_false_2 by done.
  unfold Sequential.saveResults. simpl creatable.
  match goal with
  | |- context [Sequential.print_top_words ?l ?w0] =>
      destruct (seq_print_top_words_frame l w0) as (Hfiles & Hcreatable & Hcerr)
  end.
  rewrite Hcreatable. simpl creatable. rewrite Hout.
  eexists. split; [reflexivity|]. simpl. by rewrite Hfiles, Hcerr.
Qed.

Lemma par_main_output_unwritable show_fixed sort stoi omp_max_threads s
    startTime endTime argv w topN numThreads :
  2 <= Z.of_nat (length argv) ->
  (if 3 <? Z.of_nat (length argv) then stoi (arg argv 3) else Some 100) = Some topN ->
  (if 4 <? Z.of_nat (length argv) then stoi (arg argv 4) else Some 0) = Some numThreads ->
  (countWordsFromFile s startTime endTime (arg argv 1)
     (create (parseSyncMethod (if 5 <? Z.of_nat (length argv) then arg argv 5
                               else "reduction"%string))) w).1.1 <> ∅ ->
  creatable w (if 2 <? Z.of_nat (length argv) then arg argv 2
               else "results/parallel/output.txt"%string) = false ->
  exists w',
    main show_fixed sort stoi omp_max_threads s startTime endTime argv w = Some (0, w') /\
    files w' = files w /\
    cerr w' = cerr w +:+ "Error: Cannot create output file " +:+
              (if 2 <? Z.of_nat (length argv) then arg argv 2
               else "results/parallel/output.txt"%string) +:+ endl.
Proof.
  intros Hargc HtopN Hthreads Hcount Hout. unfold main.
  rewrite (proj2 (Z.ltb_ge _ _)) by lia. rewrite HtopN, Hthreads.
  unfold countWordsFromFile in *. simpl files in *.
  destruct (files w !! arg argv 1) as [content|] eqn:Hf; [|done].
  simpl in Hcount. rewrite bool_decide_eq_false_2 by done.
  unfold saveResults. simpl creatable.
  match goal with
  | |- context [print_top_words ?l ?w0] =>
      destruct (par_print_top_words_frame l w0) as (Hfiles & Hcreatable & Hcerr)
  end.
  rewrite Hcreatable. simpl creatable. rewrite Hout.
  eexists. split; [reflexivity|]. simpl. by rewrite Hfiles, Hcerr.
Qed.


(** C8. When the output file cannot be opened for writing, [saveResults]
    (in both classes) prints "Error: Cannot create output file <filename>"
    on the error console and returns: no file is written and nothing is
    printed on the standard output. The program goes on: a run of either
    driver that counted at least one word and then fails to open its output
    file still runs to its end and exits with code 0, with that message on
    the error console and the files as they were. *)
Theorem saveResults_unwritable
    (show_fixed : nat -> Q -> string)
    (sort : (Entry -> Entry -> bool) -> list Entry -> list Entry)
    (stoi : string -> option Z) (omp_max_threads : Z) (s : Schedule)
    (startTime endTime : Q) (filename : string) (w : World) (topN : Z)
    (cs : Sequential.WordCounterSequential) (cp : WordCounterParallel)
    (wordMap : WordMap) :
  creatable w filename = false ->
  let message := ("Error: Cannot create output file " +:+ filename +:+ endl)%string in
  Sequential.saveResults show_fixed sort cs wordMap filename topN w
  = mkWorld (files w) (creatable w) (cout w) (cerr w +:+ message) /\
  saveResults show_fixed sort cp wordMap filename topN w
  = mkWorld (files w) (creatable w) (cout w) (cerr w +:+ message) /\
  (forall argv top,
     2 <= Z.of_nat (length argv) ->
     (if 3 <? Z.of_nat (length argv) then stoi (Sequential.arg argv 3) else Some 100)
     = Some top ->
     (Sequential.countWordsFromFile startTime endTime (Sequential.arg argv 1)
        Sequential.create w).1.1 <> ∅ ->
     (if 2 <? Z.of_nat (length argv) then Sequential.arg argv 2
      else "results/sequential/output.txt"%string) = filename ->
     exists w',
       Sequential.main show_fixed sort stoi startTime endTime argv w = Some (0, w') /\
       files w' = files w /\ cerr w' = cerr w +:+ message) /\
  (forall argv top numThreads,
     2 <= Z.of_nat (length argv) ->
     (if 3 <? Z.of_nat (length argv) then stoi (arg argv 3) else Some 100) = Some top ->
     (if 4 <? Z.of_nat (length argv) then stoi (arg argv 4) else Some 0)
     = Some numThreads ->
     (countWordsFromFile s startTime endTime (arg argv 1)
        (create (parseSyncMethod (if 5 <? Z.of_nat (length argv) then arg argv 5
                                  else "reduction"%string))) w).1.1 <> ∅ ->
     (if 2 <? Z.of_nat (length argv) then arg argv 2
      else "results/parallel/output.txt"%string) = filename ->
     exists w',
       main show_fixed sort stoi omp_max_threads s startTime endTime argv w
       = Some (0, w') /\
       files w' = files w /\ cerr w' = cerr w +:+ message).
Proof.
  intros Hout message. repeat split.
  - unfold Sequential.saveResults. by rewrite Hout.
  - unfold saveResults. by rewrite Hout.
  - intros argv top Hargc Htop Hcount Hname.
    destruct (seq_main_output_unwritable show_fixed sort stoi startTime endTime
                argv w top Hargc Htop Hcount) as (w' & Hmain & Hfiles & Hcerr).
    { by rewrite Hname. }
    exists w'. rewrite Hname in Hcerr. done.
  - intros argv top numThreads Hargc Htop Hthreads Hcount Hname.
    destruct (par_main_output_unwritable show_fixed sort stoi omp_max_threads s
                startTime endTime argv w top numThreads Hargc Htop Hthreads Hcount)
      as (w' & Hmain & Hfiles & Hcerr).
    { by rewrite Hname. }
    exists w'. rewrite Hname in Hcerr. done.
Qed.

Lemma saveResults_unwritable_witness :
  let w := mkWorld {["in.txt"%string := "b a b"%string]}
                   (fun name => negb (String.eqb name "/out.txt")) "" "" in
  let wordMap : WordMap := {["a"%string := 1; "b"%string := 2]} in
  creatable w "/out.txt" = false /\
  Sequential.saveResults (fun _ _ => "0.00"%string) insertion_sort Sequential.create
    wordMap "/out.txt" 100 w
  = mkWorld (files w) (creatable w) ""
            ("Error: Cannot create output file /out.txt" +:+ endl) /\
  exists w',
    Sequential.main (fun _ _ => "0.00"%string) insertion_sort (fun _ => None) 0 1
      ["sequential_counter"; "in.txt"; "/out.txt"]%string w = Some (0, w') /\
    files w' = files w.
Proof.
  intros w wordMap. split; [reflexivity|].
  pose proof (saveResults_unwritable (fun _ _ => "0.00"%string) insertion_sort
                (fun _ => None) 4 (static_schedule 2 3) 0 1 "/out.txt" w 100
                Sequential.create (create Reduction) wordMap eq_refl)
    as (Hsave & _ & Hmain & _).
  split; [exact Hsave|].
  destruct (Hmain ["sequential_counter"; "in.txt"; "/out.txt"]%string 100)
    as (w' & Hrun & Hfiles & _).
  - simpl. lia.
  - reflexivity.
  - vm_compute. discriminate.
  - reflexivity.
  - exists w'. by split.
Defined.

(** The drivers run: a successful run writes the report and exits with 0,
    a missing input file or too few arguments make them exit with 1. *)
Example sequential_main_runs :
  let w := mkWorld {["in.txt"%string := "b a b"%string]} (fun _ => true) "" "" in
  let run := Sequential.main (fun _ _ => "0.00"%string) insertion_sort (fun _ => None) 0 1 in
  fst <$> run ["sequential_counter"; "in.txt"; "out.txt"]%string w = Some 0 /\
  (fun r => bool_decide (is_Some (files r.2 !! "out.txt"%string)))
    <$> run ["sequential_counter"; "in.txt"; "out.txt"]%string w = Some true /\
  fst <$> run ["sequential_counter"; "none.txt"; "out.txt"]%string w = Some 1 /\
  fst <$> run ["sequential_counter"]%string w = Some 1.
Proof. intros w run. repeat split; vm_compute; reflexivity. Qed.

Example parallel_main_runs :
  let w := mkWorld {["in.txt"%string := "b a b"%string]} (fun _ => true) "" "" in
  let run := main (fun _ _ => "0.00"%string) insertion_sort
                  (fun a => if String.eqb a "2" then Some 2 else Some 10) 8
                  (static_schedule 2 3) 0 1 in
  fst <$> run ["parallel_counter"; "in.txt"; "out.txt"; "10"; "2"; "atomic"]%string w
  = Some 0 /\
  (fun r => bool_decide (is_Some (files r.2 !! "out.txt"%string)))
    <$> run ["parallel_counter"; "in.txt"; "out.txt"; "10"; "2"; "atomic"]%string w
  = Some true /\
  fst <$> run ["parallel_counter"; "none.txt"]%string w = Some 1.
Proof. intros w run. repeat split; vm_compute; reflexivity. Qed.

(** * Further properties of the code *)

(** ** normalizeWord *)

Lemma chars_append a b :
  list_ascii_of_string (a +:+ b) = list_ascii_of_string a ++ list_ascii_of_string b.
Proof. induction a as [|c a IH]; [done|]. rewrite append_cons. simpl. by rewrite IH. Qed.

Lemma string_of_chars_app l1 l2 :
  string_of_list_ascii (l1 ++ l2) = string_of_list_ascii l1 +:+ string_of_list_ascii l2.
Proof. induction l1 as [|c l1 IH]; [done|]. simpl. by rewrite IH, append_cons. Qed.

Lemma string_length_chars s : String.length s = length (list_ascii_of_string s).
Proof. induction s as [|c s IH]; simpl; [done|]. by rewrite IH. Qed.

Lemma lower_case_letter c :
  is_letter c = true ->
  is_letter (lower_case c) = true /\ lower_case (lower_case c) = lower_case c /\
  islower (uchar (lower_case c)) = true.
Proof. destruct c as [[] [] [] [] [] [] [] []]; vm_compute; intros; repeat split; congruence. Qed.

Lemma filter_letters_lowered l :
  List.filter is_letter (map lower_case (List.filter is_letter l))
  = map lower_case (List.filter is_letter l).
Proof.
  induction l as [|c l IH]; simpl; [done|].
  destruct (is_letter c) eqn:Hc; [|done]. simpl.
  destruct (lower_case_letter c Hc) as (-> & _ & _). by rewrite IH.
Qed.

Lemma normalize_chars token :
  list_ascii_of_string (Sequential.normalizeWord token)
  = map lower_case (List.filter is_letter (list_ascii_of_string token)).
Proof.
  rewrite seq_normalize_spec. unfold normalize_spec.
  apply list_ascii_of_string_of_list_ascii.
Qed.

(** X1. Normalizing twice is normalizing once, in both classes. *)
Theorem normalizeWord_idempotent (word : string) :
  Sequential.normalizeWord (Sequential.normalizeWord word) = Sequential.normalizeWord word /\
  normalizeWord (normalizeWord word) = normalizeWord word.
Proof.
  assert (Sequential.normalizeWord (Sequential.normalizeWord word)
          = Sequential.normalizeWord word) as H; [|split; exact H].
  rewrite (seq_normalize_spec (Sequential.normalizeWord word)). unfold normalize_spec.
  rewrite normalize_chars, filter_letters_lowered, map_map.
  rewrite seq_normalize_spec. unfold normalize_spec. f_equal.
  apply map_ext_in. intros c Hc. apply filter_In in Hc as [_ Hc].
  by destruct (lower_case_letter c Hc) as (_ & -> & _).
Qed.

(** X2. The normal form of a word holds only the lowercase letters a to z
    and is never longer than the word. *)
Theorem normalizeWord_lowercase_letters (word : string) :
  Forall (fun c => islower (uchar c) = true)
         (list_ascii_of_string (Sequential.normalizeWord word)) /\
  (String.length (Sequential.normalizeWord word) <= String.length word)%nat.
Proof.
  split.
  - rewrite normalize_chars. apply Forall_forall. intros c Hc.
    apply list_elem_of_fmap in Hc as (d & -> & Hd).
    apply list_elem_of_In, filter_In in Hd as [_ Hd].
    by destruct (lower_case_letter d Hd) as (_ & _ & ->).
  - rewrite !string_length_chars, normalize_chars, length_map.
    apply List.filter_length_le.
Qed.

(** X3. The normal form of a concatenation is the concatenation of the
    normal forms: a character is kept or dropped whatever its neighbours. *)
Theorem normalizeWord_append (a b : string) :
  Sequential.normalizeWord (a +:+ b)
  = Sequential.normalizeWord a +:+ Sequential.normalizeWord b.
Proof.
  rewrite !seq_normalize_spec. unfold normalize_spec.
  by rewrite chars_append, List.filter_app, map_app, string_of_chars_app.
Qed.

(** X4. [isValidChar] accepts exactly the characters that [normalizeWord]
    keeps: the one-character word of [c] has a non-empty normal form if and
    only if [isValidChar c]. *)
Theorem isValidChar_iff_kept (c : ascii) :
  (Sequential.isValidChar c = true <->
   Sequential.normalizeWord (String c "") <> ""%string) /\
  (isValidChar c = true <-> normalizeWord (String c "") <> ""%string).
Proof.
  assert (Sequential.isValidChar c = true <->
          Sequential.normalizeWord (String c "") <> ""%string) as H; [|split; exact H].
  unfold Sequential.isValidChar, Sequential.normalizeWord. simpl.
  destruct (isalpha (uchar c)); split; try done.
Qed.

(** ** The tokenizer *)

Lemma no_space_append_char word c :
  no_space (word +:+ String c "") = no_space word && negb (isspace (uchar c)).
Proof. unfold no_space. rewrite chars_append, forallb_app. simpl. by rewrite andb_true_r. Qed.

Lemma read_words_clean text word :
  no_space word = true ->
  Forall (fun w => is_empty w = false /\ no_space w = true) (read_words text word).
Proof.
  revert word. induction text as [|c rest IH]; intros word Hw; simpl.
  - destruct (is_empty word) eqn:He; [constructor|]. by repeat constructor.
  - destruct (isspace (uchar c)) eqn:Hc.
    + destruct (is_empty word) eqn:He; [by apply IH|].
      constructor; [done|]. by apply IH.
    + apply IH. by rewrite no_space_append_char, Hw, Hc.
Qed.

(** X5. Every word read from a text is non-empty and holds no white
    space. *)
Theorem extract_words_clean (text : string) :
  Forall (fun w => is_empty w = false /\ no_space w = true) (extract_words text).
Proof. by apply read_words_clean. Qed.

Lemma read_words_split t1 sep t2 word :
  isspace (uchar sep) = true ->
  read_words (t1 +:+ String sep t2) word = read_words t1 word ++ read_words t2 "".
Proof.
  intros Hsep. revert word. induction t1 as [|c t1 IH]; intros word.
  - change ("" +:+ String sep t2)%string with (String sep t2). simpl. rewrite Hsep.
    by destruct (is_empty word).
  - rewrite append_cons. simpl. destruct (isspace (uchar c)).
    + destruct (is_empty word); by rewrite IH.
    + apply IH.
Qed.

(** X6. A white space character splits the text: the words of
    [t1 sep t2] are the words of [t1] followed by the words of [t2]. *)
Theorem extract_words_split (t1 t2 : string) (sep : ascii) :
  isspace (uchar sep) = true ->
  extract_words (t1 +:+ String sep t2) = extract_words t1 ++ extract_words t2.
Proof. intros Hsep. by apply read_words_split. Qed.

Lemma extract_words_split_witness :
  isspace (uchar (ascii_of_nat 10)) = true /\
  extract_words ("the Cat" +:+ String (ascii_of_nat 10) "sat on")
  = extract_words "the Cat" ++ extract_words "sat on".
Proof.
  split; [reflexivity|]. apply (extract_words_split "the Cat" "sat on"). reflexivity.
Defined.

Lemma read_words_word w acc :
  no_space w = true -> is_empty (acc +:+ w) = false ->
  read_words w acc = [acc +:+ w].
Proof.
  revert acc. induction w as [|c w IH]; intros acc Hw He.
  - rewrite append_empty_r in *. simpl. by rewrite He.
  - unfold no_space in Hw. simpl in Hw. apply andb_prop in Hw as [Hc Hw].
    simpl. destruct (isspace (uchar c)); [done|].
    rewrite IH; [|done|].
    + by rewrite append_assoc, append_cons.
    + by rewrite append_assoc, append_cons.
Qed.

(** X7. Splitting undoes joining: the words read from a text made of
    non-empty words without white space, each followed by a blank, are
    these words, in order. *)
Theorem extract_words_join (ws : list string) :
  Forall (fun w => is_empty w = false /\ no_space w = true) ws ->
  extract_words (join_words ws) = ws.
Proof.
  induction 1 as [|w ws [He Hw] _ IH]; [done|].
  change (join_words (w :: ws)) with (w +:+ String " "%char (join_words ws)).
  unfold extract_words in *. rewrite read_words_split by reflexivity.
  by rewrite IH, read_words_word.
Qed.

Lemma extract_words_join_witness :
  Forall (fun w => is_empty w = false /\ no_space w = true) ["Hello,"; "world"]%string /\
  extract_words (join_words ["Hello,"; "world"]%string) = ["Hello,"; "world"]%string.
Proof.
  assert (Forall (fun w => is_empty w = false /\ no_space w = true)
                 ["Hello,"; "world"]%string) as H by (repeat constructor).
  split; [exact H|]. exact (extract_words_join _ H).
Defined.

(** ** What the frequency map holds *)

Lemma key_sum_absent k (l : list Entry) : k ∉ l.*1 -> key_sum k l = 0.
Proof.
  induction l as [|e l IH]; [done|]. simpl. intros Hk.
  apply not_elem_of_cons in Hk as [Hne Hk]. rewrite decide_False by done. by apply IH.
Qed.

Lemma replay_lookup l (m : WordMap) k :
  replay l m !! k
  = if decide (k ∈ l.*1) then Some (wrap64 (default 0 (m !! k) + key_sum k l))
    else m !! k.
Proof.
  revert m. induction l as [|e l IH]; intros m.
  - rewrite decide_False; [done|]. apply not_elem_of_nil.
  - change (replay (e :: l) m) with (replay l (map_add m e.1 e.2)).
    rewrite IH, lookup_map_add, fmap_cons. simpl key_sum.
    destruct (decide (k ∈ l.*1)) as [Hin|Hnin]; destruct (decide (e.1 = k)) as [Heq|Hne].
    + rewrite decide_True by (by right). simpl.
      rewrite wrap64_add_l, Heq. do 2 f_equal. lia.
    + by rewrite decide_True by (by right).
    + rewrite decide_True by (rewrite Heq; by left).
      rewrite key_sum_absent by done. by rewrite Z.add_0_r, Heq.
    + rewrite decide_False; [done|]. intros [?|?]%elem_of_cons; congruence.
Qed.

Lemma occurrences_cons k w ws :
  occurrences k (w :: ws)
  = occurrences k ws + (if decide (Sequential.normalizeWord w = k) then 1 else 0).
Proof.
  unfold occurrences. simpl.
  destruct (String.eqb_spec (Sequential.normalizeWord w) k); case_decide; try done;
    simpl; lia.
Qed.

Lemma occurrences_nonneg k ws : 0 <= occurrences k ws.
Proof. unfold occurrences. lia. Qed.

Lemma occurrences_positive k ws :
  0 < occurrences k ws <-> exists w, w ∈ ws /\ Sequential.normalizeWord w = k.
Proof.
  induction ws as [|w ws IH].
  - split; [unfold occurrences; simpl; lia|]. intros (w & Hw & _). by apply elem_of_nil in Hw.
  - rewrite occurrences_cons. pose proof (occurrences_nonneg k ws). split.
    + intros Hpos. case_decide.
      * exists w. split; [by left|done].
      * destruct IH as [IH _]. destruct IH as (w' & Hw' & Hk); [lia|].
        exists w'. split; [by right|done].
    + intros (w' & [->|Hw']%elem_of_cons & Hk).
      * rewrite decide_True by done. lia.
      * destruct IH as [_ IH]. specialize (IH (ex_intro _ w' (conj Hw' Hk))).
        case_decide; lia.
Qed.

Lemma word_entries_keys k ws :
  k ∈ (word_entries ws).*1 <-> k <> ""%string /\ 0 < occurrences k ws.
Proof.
  rewrite occurrences_positive. unfold word_entries. rewrite <- list_fmap_compose. split.
  - intros (w & -> & Hw)%list_elem_of_fmap. simpl.
    apply list_elem_of_In, filter_In in Hw as [Hw He]. split.
    + intros H0. rewrite H0 in He. done.
    + exists w. split; [by apply list_elem_of_In|done].
  - intros (Hne & w & Hw & <-). apply list_elem_of_fmap. exists w. split; [done|].
    apply list_elem_of_In, filter_In. split; [by apply list_elem_of_In|].
    destruct (Sequential.normalizeWord w); done.
Qed.

Lemma word_entries_key_sum k ws :
  k <> ""%string -> key_sum k (word_entries ws) = occurrences k ws.
Proof.
  intros Hne. induction ws as [|w ws IH]; [done|].
  rewrite word_entries_cons, occurrences_cons.
  destruct (is_empty (Sequential.normalizeWord w)) eqn:He.
  - apply is_empty_true in He. rewrite decide_False by congruence. lia.
  - simpl. rewrite IH. case_decide; lia.
Qed.

(** The count the map of a word list holds for [k]: none for the empty
    string and for a normal form that does not occur, else the number of
    occurrences modulo 2^64. *)
Lemma words_lookup ws k :
  replay (word_entries ws) ∅ !! k
  = if decide (k = ""%string \/ occurrences k ws = 0) then None
    else Some (wrap64 (occurrences k ws)).
Proof.
  rewrite replay_lookup, lookup_empty. simpl.
  pose proof (occurrences_nonneg k ws).
  destruct (decide (k ∈ (word_entries ws).*1)) as [Hin|Hnin].
  - apply word_entries_keys in Hin as [Hne Hpos].
    rewrite decide_False by (intros [?|?]; [done|lia]).
    by rewrite word_entries_key_sum.
  - rewrite decide_True; [done|].
    destruct (decide (k = ""%string)); [by left|right].
    destruct (decide (occurrences k ws = 0)); [done|].
    exfalso. apply Hnin, word_entries_keys. split; [done|lia].
Qed.

Lemma is_empty_normalize w : is_empty (Sequential.normalizeWord w) = negb (has_letter w).
Proof.
  rewrite seq_normalize_spec. unfold normalize_spec, has_letter.
  induction (list_ascii_of_string w) as [|c l IH]; [done|]. simpl.
  by destruct (is_letter c).
Qed.

Lemma count_nonempty_letters ws :
  count_nonempty ws = Z.of_nat (length (List.filter has_letter ws)).
Proof.
  unfold count_nonempty. do 2 f_equal. apply List.filter_ext. intros w.
  by rewrite is_empty_normalize, negb_involutive.
Qed.

Lemma normalize_lowercase word :
  Forall (fun c => islower (uchar c) = true)
         (list_ascii_of_string (Sequential.normalizeWord word)).
Proof.
  rewrite normalize_chars. apply Forall_forall. intros c Hc.
  apply list_elem_of_fmap in Hc as (d & -> & Hd).
  apply list_elem_of_In, filter_In in Hd as [_ Hd].
  by destruct (lower_case_letter d Hd) as (_ & _ & ->).
Qed.

(** X8. The count [countWords] returns for a key is the number of words
    of the text whose normal form is that key, modulo 2^64; the empty
    string and normal forms that do not occur are not keys. The same holds
    for [countWordsFromFile] on the content of a file that opens. *)
Theorem sequential_counts_occurrences (text filename : string) (k : string)
    (startTime endTime : Q) (cs : Sequential.WordCounterSequential) (w : World) :
  files w !! filename = Some text ->
  let expected :=
    if decide (k = ""%string \/ occurrences k (extract_words text) = 0) then None
    else Some (wrap64 (occurrences k (extract_words text))) in
  (Sequential.countWords startTime endTime text cs).1 !! k = expected /\
  (Sequential.countWordsFromFile startTime endTime filename cs w).1.1 !! k = expected.
Proof.
  intros Hf expected. rewrite seq_countWords_spec.
  rewrite (seq_countWordsFromFile_spec _ _ _ text) by done. simpl.
  by rewrite words_lookup.
Qed.

Lemma sequential_counts_occurrences_witness :
  let w := mkWorld {["in.txt"%string := "The (the) THE end"%string]} (fun _ => true) "" "" in
  files w !! "in.txt"%string = Some "The (the) THE end"%string /\
  (Sequential.countWordsFromFile 0 1 "in.txt" Sequential.create w).1.1 !! "the"%string
  = Some 3.
Proof.
  intros w. split; [reflexivity|].
  exact (proj2 (sequential_counts_occurrences "The (the) THE end" "in.txt" "the" 0 1
                  Sequential.create w eq_refl)).
Defined.

(** X9. totalWords after [countWords] is the number of words of the text
    that hold at least one ASCII letter, modulo 2^64, and uniqueWords is
    the number of distinct non-empty normal forms, the size of the map. *)
Theorem sequential_total_is_words_with_letters (text : string)
    (startTime endTime : Q) (cs : Sequential.WordCounterSequential) :
  let r := Sequential.countWords startTime endTime text cs in
  Sequential.getTotalWords r.2
  = wrap64 (Z.of_nat (length (List.filter has_letter (extract_words text)))) /\
  Sequential.getUniqueWords r.2 = Z.of_nat (size (dom r.1)) /\
  (forall k, k ∈ dom r.1 <->
             k <> ""%string /\
             exists word, word ∈ extract_words text /\ Sequential.normalizeWord word = k).
Proof.
  intros r. subst r. rewrite seq_countWords_spec. simpl.
  rewrite count_nonempty_letters, size_dom. split; [done|]. split; [done|].
  intros k. rewrite elem_of_dom, words_lookup, <- occurrences_positive.
  pose proof (occurrences_nonneg k (extract_words text)).
  case_decide as Hd; split.
  - by intros [v Hv].
  - intros [Hne Hpos]. destruct Hd; [done|lia].
  - intros _. split; [tauto|]. destruct (decide (occurrences k (extract_words text) = 0)); [|lia].
    tauto.
  - intros _. by eexists.
Qed.

(** X10. Every key of the map [countWords] returns is a non-empty string
    of lowercase letters a to z. *)
Theorem sequential_keys_are_lowercase_words (text : string) (k : string)
    (startTime endTime : Q) (cs : Sequential.WordCounterSequential) :
  k ∈ dom (Sequential.countWords startTime endTime text cs).1 ->
  is_empty k = false /\
  Forall (fun c => islower (uchar c) = true) (list_ascii_of_string k).
Proof.
  rewrite seq_countWords_spec. simpl. intros [v Hv]%elem_of_dom.
  rewrite words_lookup in Hv. case_decide as Hd; [done|].
  pose proof (occurrences_nonneg k (extract_words text)).
  assert (0 < occurrences k (extract_words text)) as Hpos by (destruct (decide (occurrences k (extract_words text) = 0)); [tauto|lia]).
  apply occurrences_positive in Hpos as (w & _ & <-). split.
  - destruct (Sequential.normalizeWord w); [tauto|done].
  - apply normalize_lowercase.
Qed.

Lemma sequential_keys_are_lowercase_words_witness :
  "hello"%string ∈ dom (Sequential.countWords 0 1 "Hello, World" Sequential.create).1 /\
  is_empty "hello" = false.
Proof.
  assert ("hello"%string ∈ dom (Sequential.countWords 0 1 "Hello, World" Sequential.create).1)
    as H by (apply elem_of_dom; exists 1; vm_compute; reflexivity).
  split; [exact H|].
  exact (proj1 (sequential_keys_are_lowercase_words "Hello, World" "hello" 0 1
                  Sequential.create H)).
Defined.

Lemma size_le_sum_counts (m : WordMap) :
  (forall k v, m !! k = Some v -> 1 <= v) -> Z.of_nat (size m) <= sum_counts m.
Proof.
  induction m as [|k v m Hk IH] using map_ind; intros Hpos.
  - by rewrite map_size_empty, sum_counts_empty.
  - rewrite map_size_insert_None, sum_counts_insert_fresh by done.
    pose proof (Hpos k v (lookup_insert_eq _ _ _)).
    assert (Z.of_nat (size m) <= sum_counts m); [|lia].
    apply IH. intros j u Hj. apply (Hpos j u).
    rewrite lookup_insert_ne; [done|]. intros ->. congruence.
Qed.

Lemma words_counts_bounded ws :
  Z.of_nat (length ws) < 2 ^ 64 ->
  (forall k v, replay (word_entries ws) ∅ !! k = Some v -> 1 <= v <= count_nonempty ws) /\
  Z.of_nat (size (replay (word_entries ws) ∅)) <= count_nonempty ws.
Proof.
  intros Hlen. pose proof (count_nonempty_bounds ws).
  destruct (sum_counts_increments (word_entries ws)) as [Hsum Hpos].
  { apply word_entries_ones. }
  { rewrite length_word_entries. lia. }
  rewrite length_word_entries in *. split.
  - intros k v Hv. specialize (Hpos k v Hv). lia.
  - rewrite <- Hsum. apply size_le_sum_counts. intros k v Hv.
    specialize (Hpos k v Hv). lia.
Qed.

(** X11. For a text shorter than 2^64 characters, every count in the map
    [countWords] returns is at least 1 and at most totalWords, and
    uniqueWords is at most totalWords. *)
Theorem sequential_counts_bounded (text : string)
    (startTime endTime : Q) (cs : Sequential.WordCounterSequential) :
  Z.of_nat (String.length text) < 2 ^ 64 ->
  let r := Sequential.countWords startTime endTime text cs in
  (forall k v, r.1 !! k = Some v -> 1 <= v <= Sequential.getTotalWords r.2) /\
  Sequential.getUniqueWords r.2 <= Sequential.getTotalWords r.2 /\
  Sequential.getTotalWords r.2 <= Z.of_nat (String.length text).
Proof.
  intros Hlen r. subst r. rewrite seq_countWords_spec. simpl.
  pose proof (extract_words_length text).
  pose proof (count_nonempty_bounds (extract_words text)).
  rewrite wrap64_small by lia.
  destruct (words_counts_bounded (extract_words text)) as [H1 H2]; [lia|].
  split; [exact H1|]. split; [exact H2|lia].
Qed.

Lemma sequential_counts_bounded_witness :
  Z.of_nat (String.length "b a, b") < 2 ^ 64 /\
  Sequential.getUniqueWords (Sequential.countWords 0 1 "b a, b" Sequential.create).2
  <= Sequential.getTotalWords (Sequential.countWords 0 1 "b a, b" Sequential.create).2.
Proof.
  assert (Z.of_nat (String.length "b a, b") < 2 ^ 64) as H by (simpl; lia).
  split; [exact H|].
  exact (proj1 (proj2 (sequential_counts_bounded "b a, b" 0 1 Sequential.create H))).
Defined.

(** X12. [countWords] returns an empty map exactly when no word of the
    text holds a letter. *)
Theorem sequential_empty_iff_no_letters (text : string)
    (startTime endTime : Q) (cs : Sequential.WordCounterSequential) :
  (Sequential.countWords startTime endTime text cs).1 = ∅ <->
  Forall (fun w => has_letter w = false) (extract_words text).
Proof.
  rewrite seq_countWords_spec. simpl. rewrite map_empty. split.
  - intros Hnone. apply Forall_forall. intros w Hw.
    destruct (has_letter w) eqn:Hl; [|done]. exfalso.
    specialize (Hnone (Sequential.normalizeWord w)). rewrite words_lookup in Hnone.
    case_decide as Hd; [|done].
    assert (0 < occurrences (Sequential.normalizeWord w) (extract_words text)) as Hpos
      by (apply occurrences_positive; eauto).
    destruct Hd as [He|Hz]; [|lia].
    pose proof (is_empty_normalize w) as Hn. rewrite He, Hl in Hn. done.
  - intros Hall k. rewrite words_lookup. case_decide as Hd; [done|]. exfalso.
    pose proof (occurrences_nonneg k (extract_words text)).
    assert (0 < occurrences k (extract_words text)) as Hpos
      by (destruct (decide (occurrences k (extract_words text) = 0)); [tauto|lia]).
    apply occurrences_positive in Hpos as (w & Hw & Hk).
    rewrite Forall_forall in Hall. specialize (Hall w Hw).
    pose proof (is_empty_normalize w) as Hn. rewrite Hall, Hk in Hn.
    apply is_empty_true in Hn. tauto.
Qed.

Lemma filter_perm {A} (f : A -> bool) (l1 l2 : list A) :
  Permutation l1 l2 -> Permutation (List.filter f l1) (List.filter f l2).
Proof.
  induction 1 as [|x l1 l2 _ IH|x y l|l1 l2 l3 _ IH1 _ IH2]; simpl.
  - done.
  - destruct (f x); [by constructor|done].
  - destruct (f x), (f y); try done. apply perm_swap.
  - by etrans.
Qed.

Lemma word_entries_normalized ws :
  word_entries ws
  = (fun n => (n, 1)) <$> List.filter (fun n => negb (is_empty n))
                                      (Sequential.normalizeWord <$> ws).
Proof.
  induction ws as [|w ws IH]; [done|]. rewrite word_entries_cons, fmap_cons. simpl.
  destruct (is_empty (Sequential.normalizeWord w)); simpl; by rewrite IH.
Qed.

(** X13. The result of [countWords] depends only on the normal forms of
    the words and not on their order: two texts whose words have the same
    normal forms, in any order, give the same map, totalWords and
    uniqueWords. *)
Theorem sequential_counts_up_to_case_and_order (text1 text2 : string)
    (startTime endTime : Q) (cs1 cs2 : Sequential.WordCounterSequential) :
  Permutation (Sequential.normalizeWord <$> extract_words text1)
              (Sequential.normalizeWord <$> extract_words text2) ->
  Sequential.countWords startTime endTime text1 cs1
  = Sequential.countWords startTime endTime text2 cs2.
Proof.
  intros Hperm. rewrite !seq_countWords_spec.
  assert (Permutation (word_entries (extract_words text1))
                      (word_entries (extract_words text2))) as He.
  { rewrite !word_entries_normalized. by apply fmap_Permutation, filter_perm. }
  rewrite (replay_perm _ _ _ He).
  rewrite <- !length_word_entries, (Permutation_length He). done.
Qed.

Lemma sequential_counts_up_to_case_and_order_witness :
  Permutation (Sequential.normalizeWord <$> extract_words "The cat. 42")
              (Sequential.normalizeWord <$> extract_words "-- CAT, the!") /\
  Sequential.countWords 0 1 "The cat. 42" Sequential.create
  = Sequential.countWords 0 1 "-- CAT, the!" Sequential.create.
Proof.
  assert (Permutation (Sequential.normalizeWord <$> extract_words "The cat. 42")
                      (Sequential.normalizeWord <$> extract_words "-- CAT, the!")) as H.
  { apply (bool_decide_unpack _). by vm_compute. }
  split; [exact H|].
  exact (sequential_counts_up_to_case_and_order _ _ 0 1 Sequential.create
           Sequential.create H).
Defined.

Lemma read_words_blank text :
  Forall (fun c => isspace (uchar c) = true) (list_ascii_of_string text) ->
  read_words text "" = [].
Proof.
  induction text as [|c rest IH]; [done|]. simpl. intros Hall.
  apply Forall_cons in Hall as [Hc Hrest]. rewrite Hc. simpl. by apply IH.
Qed.

(** X14. On a text of white space only (the empty text included) both
    classes return an empty map and set totalWords and uniqueWords to
    zero; the parallel class returns before its parallel region, whatever
    the schedule. *)
Theorem countWords_blank_text (text : string) (s : Schedule)
    (startTime endTime : Q) (cs : Sequential.WordCounterSequential)
    (cp : WordCounterParallel) :
  Forall (fun c => isspace (uchar c) = true) (list_ascii_of_string text) ->
  Sequential.countWords startTime endTime text cs
  = (∅, Sequential.mkCounter (endTime - startTime) 0 0) /\
  countWords s startTime endTime text cp
  = (∅, mkCounter (endTime - startTime) 0 0 (syncMethod cp)).
Proof.
  intros Hblank. apply read_words_blank in Hblank.
  unfold Sequential.countWords, Sequential.count_stream, countWords, extract_words.
  rewrite Hblank. done.
Qed.

Lemma countWords_blank_text_witness :
  let text := String (ascii_of_nat 9) (String (ascii_of_nat 10) " ") in
  Forall (fun c => isspace (uchar c) = true) (list_ascii_of_string text) /\
  countWords (mkSchedule [] [] []) 0 1 text (create Critical)
  = (∅, mkCounter (1 - 0) 0 0 Critical).
Proof.
  intros text.
  assert (Forall (fun c => isspace (uchar c) = true) (list_ascii_of_string text)) as H
    by (repeat constructor).
  split; [exact H|].
  exact (proj2 (countWords_blank_text text (mkSchedule [] [] []) 0 1 Sequential.create
                  (create Critical) H)).
Defined.

(** ** The merge section and the parallel counter *)

Lemma key_sum_NoDup k v (l : list Entry) :
  NoDup l.*1 -> (k, v) ∈ l -> key_sum k l = v.
Proof.
  induction l as [|e l IH]; intros Hnd Hin; [by apply elem_of_nil in Hin|].
  rewrite fmap_cons in Hnd. apply NoDup_cons in Hnd as [Hfresh Hnd]. simpl.
  apply elem_of_cons in Hin as [<-|Hin].
  - simpl. rewrite decide_True by done. simpl in Hfresh.
    rewrite key_sum_absent by done. lia.
  - rewrite decide_False; [by apply IH|]. intros He. apply Hfresh.
    rewrite He. apply list_elem_of_fmap. by exists (k, v).
Qed.

(** Adding the entries of a map [loc] to a map [g], key by key. *)
Lemma replay_map_lookup (loc g : WordMap) k :
  replay (map_to_list loc) g !! k
  = match loc !! k with
    | Some v => Some (wrap64 (default 0 (g !! k) + v))
    | None => g !! k
    end.
Proof.
  rewrite replay_lookup. destruct (loc !! k) as [v|] eqn:Hk.
  - rewrite decide_True.
    + by rewrite (key_sum_NoDup k v) by
        (first [apply NoDup_fst_map_to_list|by apply elem_of_map_to_list]).
    + apply list_elem_of_fmap. exists (k, v). split; [done|]. by apply elem_of_map_to_list.
  - rewrite decide_False; [done|].
    intros ([j v] & -> & Hv%elem_of_map_to_list)%list_elem_of_fmap. simpl in *. congruence.
Qed.

(** X15. The merge section of a thread adds its local counts to the
    global map key by key, modulo 2^64: a key of the local map gets the
    sum of both counts (the local count alone when the global map does not
    hold it), every other key keeps its count; the team and the shared
    total are not touched. *)
Theorem merge_step_adds_counts (r : Region) (tid : nat) (t : Thread) (k : string) :
  team r !! tid = Some t ->
  wordFreq (merge_step r tid) !! k
  = match localMap t !! k with
    | Some v => Some (wrap64 (default 0 (wordFreq r !! k) + v))
    | None => wordFreq r !! k
    end /\
  team (merge_step r tid) = team r /\
  totalWordCount (merge_step r tid) = totalWordCount r.
Proof.
  intros Ht. unfold merge_step. rewrite Ht. simpl. split; [|done].
  apply replay_map_lookup.
Qed.

Lemma merge_step_adds_counts_witness :
  let t := mkThread [] {["a"%string := 2; "b"%string := 1]} 0 in
  let r := mkRegion [t] {["a"%string := 5]} 7 in
  team r !! 0%nat = Some t /\
  wordFreq (merge_step r 0) !! "a"%string = Some 7 /\
  wordFreq (merge_step r 0) !! "b"%string = Some 1.
Proof.
  intros t r. split; [reflexivity|]. split.
  - exact (proj1 (merge_step_adds_counts r 0 t "a" eq_refl)).
  - exact (proj1 (merge_step_adds_counts r 0 t "b" eq_refl)).
Defined.

(** X16. Under every schedule the runtime can produce and with every
    method, the parallel [countWords] returns what the sequential loop
    returns on the words its [int] loop visits, a prefix of the words of
    the text of fewer than 2^31 words: the same map and total, with
    totalWords below 2^31 and uniqueWords at most totalWords. *)
Theorem parallel_counts_visited_prefix (text : string) (s : Schedule)
    (startTime endTime : Q) (cp : WordCounterParallel) :
  valid_schedule s (length (loop_range (extract_words text))) ->
  let visited := loop_range (extract_words text) in
  let par := countWords s startTime endTime text cp in
  visited `prefix_of` extract_words text /\
  Z.of_nat (length visited) < 2 ^ 31 /\
  (par.1, getTotalWords par.2) = fold_left Sequential.count_word visited (∅, 0) /\
  getUniqueWords par.2 = Z.of_nat (size (dom par.1)) /\
  getUniqueWords par.2 <= getTotalWords par.2 /\
  getTotalWords par.2 <= Z.of_nat (length visited).
Proof.
  intros Hs visited par. subst par. rewrite par_countWords_spec by done. fold visited.
  simpl. pose proof (loop_range_length (extract_words text)) as Hlen. fold visited in Hlen.
  pose proof (count_nonempty_bounds visited).
  destruct (words_counts_bounded visited) as [_ Hsize]; [lia|].
  rewrite count_word_fold by done. rewrite Z.add_0_l, size_dom.
  rewrite wrap64_small by lia.
  split; [apply prefix_take|]. repeat split; try done; lia.
Qed.

Lemma parallel_counts_visited_prefix_witness :
  valid_schedule (static_schedule 3 4) (length (loop_range (extract_words "a b a c"))) /\
  getTotalWords (countWords (static_schedule 3 4) 0 1 "a b a c" (create Atomic)).2
  <= Z.of_nat (length (loop_range (extract_words "a b a c"))).
Proof.
  assert (valid_schedule (static_schedule 3 4)
            (length (loop_range (extract_words "a b a c")))) as H
    by (apply (static_schedule_valid 3 4); lia).
  split; [exact H|].
  pose proof (parallel_counts_visited_prefix "a b a c" (static_schedule 3 4) 0 1
                (create Atomic) H) as (_ & _ & _ & _ & _ & Hle).
  exact Hle.
Defined.

(** X17. Under every valid schedule the count the parallel [countWords]
    returns for a key is exactly the number of visited words whose normal
    form is that key (no wrap-around can occur), and every count is at
    least 1. *)
Theorem parallel_counts_occurrences (text : string) (s : Schedule) (k : string)
    (startTime endTime : Q) (cp : WordCounterParallel) :
  valid_schedule s (length (loop_range (extract_words text))) ->
  (countWords s startTime endTime text cp).1 !! k
  = if decide (k = ""%string \/ occurrences k (loop_range (extract_words text)) = 0)
    then None
    else Some (occurrences k (loop_range (extract_words text))).
Proof.
  intros Hs. rewrite par_countWords_spec by done. simpl. rewrite words_lookup.
  case_decide; [done|]. f_equal. apply wrap64_small.
  pose proof (loop_range_length (extract_words text)).
  pose proof (occurrences_nonneg k (loop_range (extract_words text))).
  assert (occurrences k (loop_range (extract_words text))
          <= Z.of_nat (length (loop_range (extract_words text)))); [|lia].
  unfold occurrences. apply inj_le, List.filter_length_le.
Qed.

Lemma parallel_counts_occurrences_witness :
  valid_schedule (static_schedule 2 4) (length (loop_range (extract_words "To be, to BE"))) /\
  (countWords (static_schedule 2 4) 0 1 "To be, to BE" (create Critical)).1 !! "be"%string
  = Some 2.
Proof.
  assert (valid_schedule (static_schedule 2 4)
            (length (loop_range (extract_words "To be, to BE")))) as H
    by (apply (static_schedule_valid 2 4); lia).
  split; [exact H|].
  exact (parallel_counts_occurrences "To be, to BE" (static_schedule 2 4) "be" 0 1
           (create Critical) H).
Defined.

(** ** getTopWords, for every [std::sort] and every size *)

Lemma sorted_desc sort l :
  std_sort_contract sort ->
  Permutation (sort by_count_desc l) l /\
  StronglySorted (fun a b => b.2 <= a.2) (sort by_count_desc l).
Proof.
  intros Hsort. destruct (Hsort l) as [Hperm Hsorted]. split; [done|].
  clear Hperm. induction Hsorted as [|x l' _ IH Hx].
  - constructor.
  - constructor; [done|].
    eapply Forall_impl; [exact Hx|]. intros y. apply by_count_desc_false.
Qed.

Lemma sorted_app_inv {A} (R : A -> A -> Prop) (l1 l2 : list A) :
  StronglySorted R (l1 ++ l2) ->
  StronglySorted R l1 /\ forall x1 x2, x1 ∈ l1 -> x2 ∈ l2 -> R x1 x2.
Proof.
  induction l1 as [|x l1 IH]; simpl; intros Hs.
  - split; [constructor|]. intros x1 x2 H1. by apply elem_of_nil in H1.
  - apply StronglySorted_inv in Hs as [Hs Hx]. destruct (IH Hs) as [IH1 IH2].
    apply Forall_app in Hx as [Hx1 Hx2]. split; [by constructor|].
    intros x1 x2 [->|H1]%elem_of_cons H2; [|by apply IH2].
    rewrite Forall_forall in Hx2. by apply Hx2.
Qed.

(** The result is a prefix of the sorted vector. *)
Lemma getTopWords_prefix sort (wordMap : WordMap) n :
  exists j, Sequential.getTopWords sort wordMap n
            = take j (sort by_count_desc (map_to_list wordMap)).
Proof.
  unfold Sequential.getTopWords. destruct (_ && _).
  - by eexists.
  - exists (length (sort by_count_desc (map_to_list wordMap))). by rewrite firstn_all.
Qed.

(** X18. With n <= 0 [getTopWords] returns all entries of the map,
    sorted, whatever the size of the map (the "0 = save all" of
    [saveResults]). *)
Theorem getTopWords_nonpositive_returns_all
    (sort : (Entry -> Entry -> bool) -> list Entry -> list Entry)
    (wordMap : WordMap) (n : Z) :
  std_sort_contract sort -> n <= 0 ->
  Permutation (Sequential.getTopWords sort wordMap n) (map_to_list wordMap) /\
  Permutation (getTopWords sort wordMap n) (map_to_list wordMap) /\
  length (getTopWords sort wordMap n) = size wordMap.
Proof.
  intros Hsort Hn.
  assert (Sequential.getTopWords sort wordMap n = sort by_count_desc (map_to_list wordMap))
    as Heq.
  { unfold Sequential.getTopWords. by rewrite (proj2 (Z.ltb_ge 0 n)) by lia. }
  change (getTopWords sort wordMap n) with (Sequential.getTopWords sort wordMap n).
  rewrite Heq. destruct (sorted_desc sort (map_to_list wordMap) Hsort) as [Hperm _].
  repeat split; try done. by rewrite (Permutation_length Hperm), length_map_to_list.
Qed.

Lemma getTopWords_nonpositive_returns_all_witness :
  std_sort_contract insertion_sort /\ 0 <= 0 /\
  length (getTopWords insertion_sort abc_map 0) = size abc_map.
Proof.
  split; [exact insertion_sort_contract|]. split; [lia|].
  exact (proj2 (proj2 (getTopWords_nonpositive_returns_all insertion_sort abc_map 0
                         insertion_sort_contract ltac:(lia)))).
Defined.

(** X19. Whatever n and the size of the map, the entries [getTopWords]
    returns are entries of the map, with distinct words, in descending
    order of count, and never more than the map holds. *)
Theorem getTopWords_returns_entries
    (sort : (Entry -> Entry -> bool) -> list Entry -> list Entry)
    (wordMap : WordMap) (n : Z) :
  std_sort_contract sort ->
  let top := Sequential.getTopWords sort wordMap n in
  top = getTopWords sort wordMap n /\
  (forall k v, (k, v) ∈ top -> wordMap !! k = Some v) /\
  NoDup top.*1 /\
  StronglySorted (fun a b => b.2 <= a.2) top /\
  (length top <= size wordMap)%nat.
Proof.
  intros Hsort top. destruct (getTopWords_prefix sort wordMap n) as [j Hj].
  fold top in Hj. destruct (sorted_desc sort (map_to_list wordMap) Hsort) as [Hperm Hsorted].
  split; [done|]. rewrite Hj. repeat split.
  - intros k v Hin. apply subseteq_take in Hin. rewrite Hperm in Hin.
    by apply elem_of_map_to_list.
  - rewrite fmap_take.
    apply (sublist_NoDup _ (sort by_count_desc (map_to_list wordMap)).*1);
      [|apply sublist_take].
    rewrite Hperm. apply NoDup_fst_map_to_list.
  - rewrite <- (take_drop j) in Hsorted. by apply sorted_app_inv in Hsorted as [? _].
  - rewrite length_take, (Permutation_length Hperm), length_map_to_list. lia.
Qed.

Lemma getTopWords_returns_entries_witness :
  std_sort_contract insertion_sort /\
  (length (Sequential.getTopWords insertion_sort abc_map 7) <= size abc_map)%nat.
Proof.
  split; [exact insertion_sort_contract|].
  pose proof (getTopWords_returns_entries insertion_sort abc_map 7 insertion_sort_contract)
    as (_ & _ & _ & _ & H).
  exact H.
Defined.

(** X20. What [getTopWords] returns are the most frequent entries: the
    entries of the map it leaves out have counts no greater than any count
    it returns; and for a map of fewer than 2^31 entries and n > 0 it
    returns min(n, size) entries. *)
Theorem getTopWords_keeps_most_frequent
    (sort : (Entry -> Entry -> bool) -> list Entry -> list Entry)
    (wordMap : WordMap) (n : Z) :
  std_sort_contract sort ->
  let top := Sequential.getTopWords sort wordMap n in
  (exists rest,
     Permutation (top ++ rest) (map_to_list wordMap) /\
     forall kept left_out, kept ∈ top -> left_out ∈ rest -> left_out.2 <= kept.2) /\
  (Z.of_nat (size wordMap) < 2 ^ 31 -> 0 < n ->
   Z.of_nat (length top) = Z.min n (Z.of_nat (size wordMap))).
Proof.
  intros Hsort top. destruct (getTopWords_prefix sort wordMap n) as [j Hj].
  fold top in Hj. destruct (sorted_desc sort (map_to_list wordMap) Hsort) as [Hperm Hsorted].
  split.
  - exists (drop j (sort by_count_desc (map_to_list wordMap))). rewrite Hj, take_drop.
    split; [done|]. intros kept left_out Hk Hl.
    rewrite <- (take_drop j) in Hsorted.
    apply sorted_app_inv in Hsorted as [_ Hdom]. by apply Hdom.
  - intros Hsize Hn. subst top.
    destruct (getTopWords_below_2_31 sort wordMap n Hsort Hsize) as (_ & _ & ->).
    rewrite (proj2 (Z.ltb_lt 0 n)) by lia. simpl.
    destruct (Z.ltb_spec n (Z.of_nat (size wordMap))).
    + rewrite length_take, (Permutation_length Hperm), length_map_to_list. lia.
    + rewrite (Permutation_length Hperm), length_map_to_list. lia.
Qed.

Lemma getTopWords_keeps_most_frequent_witness :
  std_sort_contract insertion_sort /\ Z.of_nat (size abc_map) < 2 ^ 31 /\ 0 < 2 /\
  Z.of_nat (length (Sequential.getTopWords insertion_sort abc_map 2))
  = Z.min 2 (Z.of_nat (size abc_map)).
Proof.
  split; [exact insertion_sort_contract|].
  assert (Z.of_nat (size abc_map) < 2 ^ 31) as Hsize by (by vm_compute).
  split; [exact Hsize|]. split; [lia|].
  exact (proj2 (getTopWords_keeps_most_frequent insertion_sort abc_map 2
                  insertion_sort_contract) Hsize ltac:(lia)).
Defined.

(** ** The drivers *)

(** The four ways a run of the sequential driver ends. *)
Lemma sequential_main_cases show_fixed sort stoi startTime endTime argv w :
  let argc := Z.of_nat (length argv) in
  let output := if 2 <? argc then Sequential.arg argv 2
                else "results/sequential/output.txt"%string in
  let counted :=
    (Sequential.countWordsFromFile startTime endTime (Sequential.arg argv 1)
       Sequential.create w).1 in
  let run := Sequential.main show_fixed sort stoi startTime endTime argv w in
  (argc < 2 /\ exists w', run = Some (1, w') /\ files w' = files w /\ cout w' = cout w) \/
  (2 <= argc /\ 3 < argc /\ stoi (Sequential.arg argv 3) = None /\ run = None) \/
  (2 <= argc /\ counted.1 = ∅ /\
   exists top w', (if 3 <? argc then stoi (Sequential.arg argv 3) else Some 100) = Some top /\
     run = Some (1, w') /\ files w' = files w) \/
  (2 <= argc /\ counted.1 <> ∅ /\
   exists top w', (if 3 <? argc then stoi (Sequential.arg argv 3) else Some 100) = Some top /\
     run = Some (0, w') /\
     files w' = if creatable w output
                then <[output := Sequential.report show_fixed sort counted.2 counted.1 top]>
                       (files w)
                else files w).
Proof.
  intros argc output counted run. subst run. unfold Sequential.main. fold argc.
  destruct (Z.ltb_spec argc 2) as [Hlt|Hge].
  { left. split; [done|]. eexists. split; [reflexivity|]. done. }
  right.
  destruct (if 3 <? argc then stoi (Sequential.arg argv 3) else Some 100)
    as [top|] eqn:Htop.
  2:{ left. destruct (Z.ltb_spec 3 argc); [|done]. done. }
  right. subst counted. unfold Sequential.countWordsFromFile. simpl files.
  destruct (files w !! Sequential.arg argv 1) as [content|] eqn:Hf.
  - simpl. destruct (decide ((Sequential.count_stream content).1 = ∅)) as [He|Hne].
    + left. rewrite bool_decide_eq_true_2 by done. split; [done|]. split; [done|].
      exists top. eexists. split; [done|]. split; [reflexivity|]. done.
    + right. rewrite bool_decide_eq_false_2 by done. split; [done|]. split; [done|].
      exists top. eexists. split; [done|]. split; [reflexivity|].
      unfold Sequential.saveResults. simpl creatable.
      rewrite (proj1 (proj2 (seq_print_top_words_frame _ _))). simpl creatable.
      fold output. destruct (creatable w output); simpl;
        by rewrite (proj1 (seq_print_top_words_frame _ _)).
  - left. simpl. rewrite bool_decide_eq_true_2 by done. split; [done|]. split; [done|].
    exists top. eexists. split; [done|]. split; [reflexivity|]. done.
Qed.

(** X21. A run of the sequential driver is terminated by the exception
    of [std::stoi] exactly when a fourth argument is given and does not
    parse. Otherwise it exits with 1 when fewer than two arguments are
    given or no word was counted (missing input file, or no letters), and
    with 0 in all other cases; it changes no file other than the output
    file, and no file at all when it exits with 1 or the output file
    cannot be created. *)
Theorem sequential_main_outcome
    (show_fixed : nat -> Q -> string)
    (sort : (Entry -> Entry -> bool) -> list Entry -> list Entry)
    (stoi : string -> option Z) (startTime endTime : Q)
    (argv : list string) (w : World) :
  let argc := Z.of_nat (length argv) in
  let output := if 2 <? argc then Sequential.arg argv 2
                else "results/sequential/output.txt"%string in
  let counted :=
    (Sequential.countWordsFromFile startTime endTime (Sequential.arg argv 1)
       Sequential.create w).1.1 in
  let run := Sequential.main show_fixed sort stoi startTime endTime argv w in
  (run = None <-> 3 < argc /\ stoi (Sequential.arg argv 3) = None) /\
  (forall code w', run = Some (code, w') ->
     (code = 1 <-> argc < 2 \/ counted = ∅) /\
     (code = 0 <-> 2 <= argc /\ counted <> ∅) /\
     (forall name, name <> output -> files w' !! name = files w !! name) /\
     (code = 1 \/ creatable w output = false -> files w' = files w)).
Proof.
  intros argc output counted run.
  destruct (sequential_main_cases show_fixed sort stoi startTime endTime argv w)
    as [(Hargc & w1 & Hrun & Hfiles & _)
       |[(Hargc & Hargc3 & Hstoi & Hrun)
        |[(Hargc & Hcount & top & w1 & Htop & Hrun & Hfiles)
         |(Hargc & Hcount & top & w1 & Htop & Hrun & Hfiles)]]];
    fold argc in Hargc; fold run in Hrun; rewrite Hrun.
  - split; [split; [done|intros [? _]; lia]|].
    intros code w' [= <- <-]. rewrite Hfiles.
    split; [split; [auto|done]|]. split; [split; [done|lia]|]. done.
  - split; [done|]. intros code w' Hsome. done.
  - fold counted in Hcount. fold argc in Htop.
    split.
    { split; [done|]. intros [H3 Hnone].
      rewrite (proj2 (Z.ltb_lt 3 argc) H3) in Htop. congruence. }
    intros code w' [= <- <-]. rewrite Hfiles.
    split; [split; [auto|done]|]. split; [split; [done|tauto]|]. done.
  - fold counted in Hcount. fold argc in Htop. fold argc output in Hfiles.
    split.
    { split; [done|]. intros [H3 Hnone].
      rewrite (proj2 (Z.ltb_lt 3 argc) H3) in Htop. congruence. }
    intros code w' [= <- <-].
    split; [split; [done|intros [?|?]; [lia|done]]|].
    split; [split; [done|done]|]. split.
    + intros name Hname. rewrite Hfiles. destruct (creatable w output); [|done].
      by rewrite lookup_insert_ne.
    + intros [?|Hc]; [done|]. by rewrite Hfiles, Hc.
Qed.

(** ** The parallel driver under the OpenMP runtime *)

Lemma static_runtime_contract limit : omp_runtime_contract (static_runtime limit).
Proof.
  intros nthreads n s. unfold static_runtime.
  destruct (Z.ltb_spec 0 nthreads) as [Hpos|]; [|done].
  destruct (Z.leb_spec nthreads limit); [|done]. simpl. intros [= <-]. split.
  - apply static_schedule_valid. lia.
  - unfold num_threads, static_schedule, static_chunk_sizes. simpl.
    rewrite length_map, length_seq. lia.
Qed.

(** The map of a word list is empty exactly when no word holds a letter. *)
Lemma words_empty_iff ws :
  replay (word_entries ws) ∅ = ∅ <-> Forall (fun word => has_letter word = false) ws.
Proof.
  rewrite map_empty. split.
  - intros Hnone. apply Forall_forall. intros w Hw.
    destruct (has_letter w) eqn:Hl; [|done]. exfalso.
    specialize (Hnone (Sequential.normalizeWord w)). rewrite words_lookup in Hnone.
    case_decide as Hd; [|done].
    assert (0 < occurrences (Sequential.normalizeWord w) ws) as Hpos
      by (apply occurrences_positive; eauto).
    destruct Hd as [He|Hz]; [|lia].
    pose proof (is_empty_normalize w) as Hn. rewrite He, Hl in Hn. done.
  - intros Hall k. rewrite words_lookup. case_decide as Hd; [done|]. exfalso.
    pose proof (occurrences_nonneg k ws).
    assert (0 < occurrences k ws) as Hpos
      by (destruct (decide (occurrences k ws = 0)); [tauto|lia]).
    apply occurrences_positive in Hpos as (w & Hw & Hk).
    rewrite Forall_forall in Hall. specialize (Hall w Hw).
    pose proof (is_empty_normalize w) as Hn. rewrite Hall, Hk in Hn.
    apply is_empty_true in Hn. tauto.
Qed.

(** [main] is [main_omp] under a runtime that creates the team and runs
    the region under [s]. *)
Lemma main_omp_team show_fixed sort stoi omp_max_threads s startTime endTime argv w :
  main_omp show_fixed sort stoi omp_max_threads (fun _ _ => Some s)
           startTime endTime argv w
  = main show_fixed sort stoi omp_max_threads s startTime endTime argv w.
Proof.
  unfold main_omp, main. destruct (_ <? 2); [done|].
  destruct (if 3 <? _ then _ else _); [|done].
  destruct (if 4 <? _ then _ else _); [|done].
  unfold countWordsFromFile_omp, region_of_file, countWordsFromFile. simpl files.
  destruct (files w !! arg argv 1) as [content|]; [|done].
  by destruct (extract_words content).
Qed.

(** The ways a run of the parallel driver ends, the runtime keeping the
    promise of OpenMP about the teams it creates. *)
Lemma parallel_main_cases show_fixed sort stoi omp_max_threads fork
    startTime endTime argv w :
  omp_runtime_contract fork ->
  let argc := Z.of_nat (length argv) in
  let output := if 2 <? argc then arg argv 2
                else "results/parallel/output.txt"%string in
  let mode := parseSyncMethod (if 5 <? argc then arg argv 5 else "reduction"%string) in
  let topN := if 3 <? argc then stoi (arg argv 3) else Some 100 in
  let numThreads := if 4 <? argc then stoi (arg argv 4) else Some 0 in
  let wordFreq := replay (word_entries (visited_words (arg argv 1) w)) ∅ in
  let counter :=
    mkCounter (endTime - startTime)
              (wrap64 (count_nonempty (visited_words (arg argv 1) w)))
              (Z.of_nat (size wordFreq)) mode in
  let run := main_omp show_fixed sort stoi omp_max_threads fork startTime endTime argv w in
  (argc < 2 /\ exists w', run = Some (1, w') /\ files w' = files w) \/
  (2 <= argc /\ run = None /\ (topN = None \/ numThreads = None)) \/
  (2 <= argc /\ exists top nt,
     topN = Some top /\ numThreads = Some nt /\
     ((run = None /\
       exists n, region_of_file (arg argv 1) w = Some n /\
                 fork (if 0 <? nt then nt else omp_max_threads) n = None) \/
      ((forall n, region_of_file (arg argv 1) w = Some n ->
                  fork (if 0 <? nt then nt else omp_max_threads) n <> None) /\
       ((wordFreq = ∅ /\ exists w', run = Some (1, w') /\ files w' = files w) \/
        (wordFreq <> ∅ /\ exists w',
           run = Some (0, w') /\
           files w' = if creatable w output
                      then <[output := report show_fixed sort counter wordFreq top]> (files w)
                      else files w))))).
Proof.
  intros Hrt argc output mode topN numThreads wordFreq counter run.
  subst run topN numThreads. unfold main_omp. fold argc.
  destruct (Z.ltb_spec argc 2) as [Hlt|Hge].
  { left. split; [done|]. eexists. split; [reflexivity|]. done. }
  right.
  destruct (if 3 <? argc then stoi (arg argv 3) else Some 100) as [top|] eqn:Htop.
  2:{ left. split; [done|]. split; [done|]. by left. }
  destruct (if 4 <? argc then stoi (arg argv 4) else Some 0) as [nt|] eqn:Hthreads.
  2:{ left. split; [done|]. split; [done|]. by right. }
  right. split; [done|]. exists top, nt. split; [done|]. split; [done|].
  fold mode output. subst counter wordFreq.
  unfold countWordsFromFile_omp, region_of_file, visited_words. simpl files.
  destruct (files w !! arg argv 1) as [content|] eqn:Hf.
  - destruct (extract_words content) as [|w0 ws] eqn:Hws.
    + right. split; [done|]. left. split; [reflexivity|].
      unfold countWordsFromFile. simpl files. rewrite Hf, Hws. simpl.
      eexists. split; [reflexivity|]. done.
    + destruct (fork (if 0 <? nt then nt else omp_max_threads)
                     (length (loop_range (w0 :: ws)))) as [s|] eqn:Hfork.
      2:{ left. split; [done|]. by eexists. }
      right. split; [intros n [= <-]; congruence|].
      destruct (Hrt _ _ _ Hfork) as [Hvalid _].
      rewrite (par_countWordsFromFile_spec s _ _ _ content) by (by rewrite ?Hws).
      rewrite Hws. simpl syncMethod.
      destruct (decide (replay (word_entries (loop_range (w0 :: ws))) ∅ = ∅)) as [He|Hne].
      * left. split; [done|]. rewrite bool_decide_eq_true_2 by done.
        eexists. split; [reflexivity|]. done.
      * right. split; [done|]. rewrite bool_decide_eq_false_2 by done.
        eexists. split; [reflexivity|].
        unfold saveResults. simpl creatable.
        rewrite (proj1 (proj2 (par_print_top_words_frame _ _))). simpl creatable.
        destruct (creatable w output); simpl;
          by rewrite (proj1 (par_print_top_words_frame _ _)).
  - right. split; [done|]. left. split; [reflexivity|].
    unfold countWordsFromFile. simpl files. rewrite Hf. simpl.
    eexists. split; [reflexivity|]. done.
Qed.

(** X22. The parallel driver under the OpenMP runtime, the runtime keeping
    its promise about the teams it creates. The process does not return
    from [main] exactly when at least two arguments are given and the
    fourth or the fifth does not parse, or the input holds a word and the
    runtime cannot create the team that [omp_set_num_threads] asked for.
    When [main] returns, it returns 1 when fewer than two arguments are
    given or no visited word of the input holds a letter (a missing input
    file included) and 0 in all other cases; it changes no file other than
    the output file, and no file at all when it returns 1 or the output
    file cannot be created. *)
Theorem parallel_main_outcome
    (show_fixed : nat -> Q -> string)
    (sort : (Entry -> Entry -> bool) -> list Entry -> list Entry)
    (stoi : string -> option Z) (omp_max_threads : Z)
    (fork : Z -> nat -> option Schedule)
    (startTime endTime : Q) (argv : list string) (w : World) :
  omp_runtime_contract fork ->
  let argc := Z.of_nat (length argv) in
  let output := if 2 <? argc then arg argv 2
                else "results/parallel/output.txt"%string in
  let topN := if 3 <? argc then stoi (arg argv 3) else Some 100 in
  let numThreads := if 4 <? argc then stoi (arg argv 4) else Some 0 in
  let visited := visited_words (arg argv 1) w in
  let run := main_omp show_fixed sort stoi omp_max_threads fork startTime endTime argv w in
  (run = None <->
   2 <= argc /\
   (topN = None \/ numThreads = None \/
    exists nt n, numThreads = Some nt /\ region_of_file (arg argv 1) w = Some n /\
                 fork (if 0 <? nt then nt else omp_max_threads) n = None)) /\
  (forall code w', run = Some (code, w') ->
     (code = 1 <-> argc < 2 \/ Forall (fun word => has_letter word = false) visited) /\
     (code = 0 <-> 2 <= argc /\ ~ Forall (fun word => has_letter word = false) visited) /\
     (forall name, name <> output -> files w' !! name = files w !! name) /\
     (code = 1 \/ creatable w output = false -> files w' = files w)).
Proof.
  intros Hrt argc output topN numThreads visited run.
  destruct (parallel_main_cases show_fixed sort stoi omp_max_threads fork
              startTime endTime argv w Hrt)
    as [(Hargc & w1 & Hrun & Hfiles)
       |[(Hargc & Hrun & Hstoi)
        |(Hargc & top & nt & Htop & Hthreads &
          [(Hrun & n & Hregion & Hfork)
          |(Hteam & [(Hcount & w1 & Hrun & Hfiles)|(Hcount & w1 & Hrun & Hfiles)])])]];
    fold argc in Hargc; fold run in Hrun; rewrite Hrun.
  - split; [split; [done|intros [? _]; lia]|].
    intros code w' [= <- <-]. rewrite Hfiles.
    split; [split; [auto|done]|]. split; [split; [done|lia]|]. done.
  - split; [|done]. split; [|done]. intros _. split; [done|].
    destruct Hstoi as [H|H]; [by left|by right; left].
  - split; [|done]. split; [|done]. intros _. split; [done|].
    right; right. by exists nt, n.
  - fold argc in Htop, Hthreads. fold topN in Htop. fold numThreads in Hthreads.
    apply words_empty_iff in Hcount. fold visited in Hcount. split.
    { split; [done|]. intros [_ [H|[H|(nt' & n & Hnt & Hregion & Hfork)]]];
        [congruence|congruence|].
      assert (nt' = nt) as -> by congruence. exfalso. by apply (Hteam n). }
    intros code w' [= <- <-]. rewrite Hfiles.
    split; [split; [auto|done]|]. split; [split; [done|tauto]|]. done.
  - fold argc in Htop, Hthreads. fold topN in Htop. fold numThreads in Hthreads.
    fold argc output in Hfiles.
    rewrite words_empty_iff in Hcount. fold visited in Hcount. split.
    { split; [done|]. intros [_ [H|[H|(nt' & n & Hnt & Hregion & Hfork)]]];
        [congruence|congruence|].
      assert (nt' = nt) as -> by congruence. exfalso. by apply (Hteam n). }
    intros code w' [= <- <-].
    split; [split; [done|intros [?|?]; [lia|done]]|].
    split; [split; [done|done]|]. split.
    + intros name Hname. rewrite Hfiles. destruct (creatable w output); [|done].
      by rewrite lookup_insert_ne.
    + intros [?|Hc]; [done|]. by rewrite Hfiles, Hc.
Qed.

Lemma parallel_main_outcome_witness :
  let w := mkWorld {["in.txt"%string := "b a b"%string]} (fun _ => true) "" "" in
  let stoi := fun a : string => if String.eqb a "10" then Some 10
                                else if String.eqb a "8" then Some 8 else None in
  omp_runtime_contract (static_runtime 4) /\
  main_omp (fun _ _ => "0.00"%string) insertion_sort stoi 4 (static_runtime 4) 0 1
    ["parallel_counter"; "in.txt"; "out.txt"; "10"; "8"]%string w = None.
Proof.
  intros w stoi. split; [apply static_runtime_contract|].
  apply (proj1 (parallel_main_outcome (fun _ _ => "0.00"%string) insertion_sort stoi 4
                  (static_runtime 4) 0 1
                  ["parallel_counter"; "in.txt"; "out.txt"; "10"; "8"]%string w
                  (static_runtime_contract 4))).
  split; [simpl; lia|]. right; right. exists 8, 3%nat.
  split; [reflexivity|]. split; vm_compute; reflexivity.
Defined.





(** ** The report rows *)

Lemma string_length_append a b : String.length (a +:+ b) = (String.length a + String.length b)%nat.
Proof. induction a as [|c a IH]; [done|]. rewrite append_cons. simpl. by rewrite IH. Qed.

Lemma spaces_length n : String.length (spaces n) = n.
Proof. unfold spaces. induction n as [|n IH]; simpl; [done|]. by rewrite IH. Qed.

(** X24. A row of the report is never cut: it starts with the whole word
    and ends with the whole count and a line feed; its length is
    max(30, length of the word) + max(15, number of digits) + 1, which is
    46 for a word of at most 30 characters and a count of at most 15
    digits. The rows of both classes are the same. *)
Theorem report_row_layout (e : Entry) :
  Sequential.report_row e = report_row e /\
  (exists padding1 padding2,
     report_row e = e.1 +:+ spaces padding1 +:+ spaces padding2 +:+ pretty e.2 +:+ endl) /\
  String.length (report_row e)
  = (Nat.max 30 (String.length e.1) + Nat.max 15 (String.length (pretty e.2)) + 1)%nat.
Proof.
  split; [done|]. unfold report_row, setw_left, setw_right. split.
  - do 2 eexists. by rewrite !append_assoc.
  - rewrite !string_length_append, !spaces_length. simpl. lia.
Qed.

(** ** The loop phase and the shared state *)

(** X25. During the loop phase, whatever the interleaving and the
    method, no thread touches the global map, the team keeps its size, and
    a thread that runs no iteration keeps its local map and totals; under
    reduction the shared total is not touched either, under atomic and
    critical the private totals are not. *)
Theorem loop_phase_frame (mode : SyncMethod) (interleaving : list nat) (r : Region) :
  let r' := fold_left (loop_step mode) interleaving r in
  wordFreq r' = wordFreq r /\
  length (team r') = length (team r) /\
  (forall tid, tid ∉ interleaving -> team r' !! tid = team r !! tid) /\
  (mode = Reduction -> totalWordCount r' = totalWordCount r) /\
  (mode <> Reduction -> privateTotal <$> team r' = privateTotal <$> team r).
Proof.
  intros r'. subst r'.
  destruct (loop_run_inv mode interleaving r r (loop_inv_refl mode r))
    as (_ & Hw & _ & Hr & Hs & _).
  split; [done|]. split; [|split; [|done]].
  - revert r Hw Hr Hs. induction interleaving as [|tid sched IH]; intros r _ _ _; [done|].
    simpl.
    destruct (loop_run_inv mode sched (loop_step mode r tid) (loop_step mode r tid)
                (loop_inv_refl mode _)) as (_ & Hw' & _ & Hr' & Hs' & _).
    rewrite (IH _ Hw' Hr' Hs'). unfold loop_step.
    destruct (team r !! tid); [|done]. destruct mode; simpl; by rewrite length_insert.
  - clear Hw Hr Hs. revert r. induction interleaving as [|tid sched IH]; intros r j Hj; [done|].
    apply not_elem_of_cons in Hj as [Hne Hj]. simpl. rewrite (IH _ _ Hj).
    unfold loop_step. destruct (team r !! tid); [|done].
    destruct mode; simpl; by rewrite list_lookup_insert_ne.
Qed.
